(** * Text extraction of pypdf: line/space heuristic and bidi accumulation

    A shallow embedding of [pypdf/_text_extraction/__init__.py] and the
    properties of its functions [set_custom_rtl], [orient],
    [crlf_space_check] and [handle_tj].

    Conventions of the embedding.
    - A Python [float] is an IEEE 754 binary64 number: Rocq's primitive
      [float], with the same rounding of every operation and the same
      decimal literals.
    - A Python [int] is a [Z]; a Python [str] is the list of its code
      points; a [bytes] value is a list of [Byte.byte].
    - A [dict] is a [gmap].
    - Code that rebinds locals, mutates the text state, calls the visitor or
      raises is written in a state-and-exception monad [M]: the state is
      kept when an exception is raised, as in Python. *)

From Stdlib Require Import ZArith List Bool String Lia.
From Stdlib Require Import Floats.
From stdpp Require Import gmap strings.

Set Warnings "-inexact-float".
Local Open Scope Z_scope.

(** ** Python values *)

(** A character is its code point ([ord]); a [str] is a sequence of them. *)
Definition char := Z.
Definition str := list char.
Definition bytes := list Byte.byte.

(** The integer value of one byte, as iterating over [bytes] gives it. *)
Definition byte_int (b : Byte.byte) : Z := Z.of_N (Byte.to_N b).

(** The exceptions the module raises or meets; every one of them derives
    from [Exception]. *)
Inductive exn : Set :=
| OrientationNotFoundError
| IndexError
| TypeError
| ValueError
| LookupError
| UnicodeDecodeError
| UnicodeEncodeError.

Inductive outcome (A : Type) : Type :=
| Return (a : A)
| Raise (e : exn).
Arguments Return {A} a.
Arguments Raise {A} e.

(** ** State and exception monad *)

Definition M (S A : Type) : Type := S -> S * outcome A.

Definition ret {S A} (a : A) : M S A := fun s => (s, Return a).

Definition bind {S A B} (c : M S A) (k : A -> M S B) : M S B :=
  fun s =>
    match c s with
    | (s', Return a) => k a s'
    | (s', Raise e) => (s', Raise e)
    end.

Definition raise {S A} (e : exn) : M S A := fun s => (s, Raise e).

(** [try: body except Exception: handler]: the handler runs in the state
    the body had reached when it raised. *)
Definition try_except {S A} (body : M S A) (handler : exn -> M S A) : M S A :=
  fun s =>
    match body s with
    | (s', Return a) => (s', Return a)
    | (s', Raise e) => handler e s'
    end.

Definition gets {S A} (f : S -> A) : M S A := fun s => (s, Return (f s)).
Definition modify {S} (f : S -> S) : M S unit := fun s => (f s, Return tt).

(** A computation that cannot touch the state, run inside [M]. *)
Definition lift {S A} (o : outcome A) : M S A := fun s => (s, o).

Declare Scope py_scope.
Delimit Scope py_scope with py.
Notation "x <- c ;; k" := (bind c (fun x => k))
  (at level 100, c at next level, right associativity) : py_scope.
Notation "c ;;; k" := (bind c (fun _ => k))
  (at level 100, right associativity) : py_scope.

(** [for x in l: body]. *)
Fixpoint for_each {S A} (l : list A) (body : A -> M S unit) : M S unit :=
  match l with
  | [] => ret tt
  | x :: l' => bind (body x) (fun _ => for_each l' body)
  end.

(** A list comprehension whose element expression may raise. *)
Fixpoint map_outcome {A B} (f : A -> outcome B) (l : list A) : outcome (list B) :=
  match l with
  | [] => Return []
  | x :: l' =>
      match f x with
      | Raise e => Raise e
      | Return y =>
          match map_outcome f l' with
          | Raise e => Raise e
          | Return ys => Return (y :: ys)
          end
      end
  end.

(** The last character of a string, when it has one. *)
Definition last_char (s : str) : option char := List.last (map Some s) None.

(** [s[-1]]. *)
Definition last_index {S} (s : str) : M S char :=
  match last_char s with
  | None => raise IndexError
  | Some c => ret c
  end.

(** ** Matrices and orientation *)

(** [Mat]: a 6-tuple of floats, read by index. *)
Record Mat : Set := mkMat {
  m0 : float; m1 : float; m2 : float; m3 : float; m4 : float; m5 : float
}.

Definition mult (m n : Mat) : Mat :=
  mkMat
    (m0 m * m0 n + m1 m * m2 n)
    (m0 m * m1 n + m1 m * m3 n)
    (m2 m * m0 n + m3 m * m2 n)
    (m2 m * m1 n + m3 m * m3 n)
    (m4 m * m0 n + m5 m * m2 n + m4 n)
    (m4 m * m1 n + m5 m * m3 n + m5 n).

Definition identity_matrix : Mat := mkMat 1 0 0 1 0 0.

(** Python's [a > b] on floats. *)
Definition gtb (a b : float) : bool := (b <? a)%float.

Definition orient (m : Mat) : Z :=
  if gtb (m3 m) 1e-6 then 0
  else if (m3 m <? -1e-6)%float then 180
  else if gtb (m1 m) 0 then 90
  else 270.

(** [math.sqrt]: a domain error on a negative argument. *)
Definition math_sqrt (x : float) : outcome float :=
  if (x <? 0)%float then Raise ValueError else Return (PrimFloat.sqrt x).

(** ** Character map and text state *)

(** [CharMap.encoding]: the name of a codec, or a table from byte values
    to strings. *)
Inductive Encoding : Type :=
| EncName (name : string)
| EncTable (table : gmap Z str).

(** The font dictionary is only carried along. *)
Definition FontDict : Type := gmap string string.

Record CharMap : Type := mkCharMap {
  encoding : Encoding;
  map_dict : gmap str str;
  font_res_name : string;
  font_dict : option FontDict
}.

Record TextState : Type := mkTextState {
  cm_matrix : Mat;
  tm_matrix : Mat;
  cmap : CharMap;
  font_size : float;
  char_scale : float;
  space_scale : float;
  _space_width : float;
  text_leading : float;
  text_offset : float;
  rtl_dir : bool
}.

(** The property [TextState.space_width]. *)
Definition space_width (st : TextState) : float := (_space_width st / 1000.0)%float.

Definition set_rtl_dir (b : bool) (st : TextState) : TextState :=
  mkTextState (cm_matrix st) (tm_matrix st) (cmap st) (font_size st)
    (char_scale st) (space_scale st) (_space_width st) (text_leading st)
    (text_offset st) b.

Definition set_text_offset (x : float) (st : TextState) : TextState :=
  mkTextState (cm_matrix st) (tm_matrix st) (cmap st) (font_size st)
    (char_scale st) (space_scale st) (_space_width st) (text_leading st)
    x (rtl_dir st).

(** [len(s)] as the float it becomes when added to a float. Exact below
    2^53, far above the length of any string. *)
Definition float_of_len (s : str) : float :=
  PrimFloat.of_uint63 (Uint63.of_Z (Z.of_nat (length s))).

(** [xy_mult]: the point [xy] through the matrix [mat]. *)
Definition xy_mult (xy : float * float) (mat : Mat) : float * float :=
  let '(x, y) := xy in
  (m0 mat * x + m2 mat * y + m4 mat, m1 mat * x + m3 mat * y + m5 mat)%float.

(** The truth value of a float in a condition: false for a zero of either
    sign, true otherwise (for a NaN too). *)
Definition truthy (x : float) : bool := negb (x =? 0)%float.

(** [TextState.pos]. *)
Definition pos (st : TextState) : outcome (float * float) :=
  let '(x, y) := xy_mult (m4 (tm_matrix st), m5 (tm_matrix st)) (cm_matrix st) in
  if truthy (text_offset st) then
    let m := mult (tm_matrix st) (cm_matrix st) in
    match math_sqrt (abs (m0 m * m3 m) + abs (m1 m * m2 m)) with
    | Raise e => Raise e
    | Return k => Return (x + text_offset st * (font_size st * k), y)%float
    end
  else Return (x, y).

(** ** Custom right-to-left configuration *)

(** The module globals [CUSTOM_RTL_MIN], [CUSTOM_RTL_MAX] and
    [CUSTOM_RTL_SPECIAL_CHARS]. *)
Record RtlConfig : Set := mkRtlConfig {
  CUSTOM_RTL_MIN : Z;
  CUSTOM_RTL_MAX : Z;
  CUSTOM_RTL_SPECIAL_CHARS : list Z
}.

(** The values the globals have when the module is loaded. *)
Definition default_config : RtlConfig := mkRtlConfig (-1) (-1) [].

(** An argument of type [Union[str, int]]. *)
Inductive StrOrInt : Set :=
| ArgInt (n : Z)
| ArgStr (s : str).

(** An argument of type [Union[str, list[int]]]. *)
Inductive StrOrList : Set :=
| SpecStr (s : str)
| SpecList (l : list Z).

(** [ord]: defined on strings of length one. *)
Definition ord (s : str) : outcome Z :=
  match s with
  | [c] => Return c
  | _ => Raise TypeError
  end.

Definition set_min (n : Z) (c : RtlConfig) : RtlConfig :=
  mkRtlConfig n (CUSTOM_RTL_MAX c) (CUSTOM_RTL_SPECIAL_CHARS c).
Definition set_max (n : Z) (c : RtlConfig) : RtlConfig :=
  mkRtlConfig (CUSTOM_RTL_MIN c) n (CUSTOM_RTL_SPECIAL_CHARS c).
Definition set_specials (l : list Z) (c : RtlConfig) : RtlConfig :=
  mkRtlConfig (CUSTOM_RTL_MIN c) (CUSTOM_RTL_MAX c) l.

Local Open Scope py_scope.

Definition set_custom_rtl (_min _max : option StrOrInt) (specials : option StrOrList)
  : M RtlConfig (Z * Z * list Z) :=
  match _min with
  | Some (ArgInt n) => modify (set_min n)
  | Some (ArgStr s) => n <- lift (ord s) ;; modify (set_min n)
  | None => ret tt
  end ;;;
  match _max with
  | Some (ArgInt n) => modify (set_max n)
  | Some (ArgStr s) => n <- lift (ord s) ;; modify (set_max n)
  | None => ret tt
  end ;;;
  match specials with
  | Some (SpecStr s) =>
      l <- lift (map_outcome (fun x => ord [x]) s) ;; modify (set_specials l)
  | Some (SpecList l) => modify (set_specials l)
  | None => ret tt
  end ;;;
  c <- gets (fun c => c) ;;
  ret (CUSTOM_RTL_MIN c, CUSTOM_RTL_MAX c, CUSTOM_RTL_SPECIAL_CHARS c).

(** ** The frame of a call

    [crlf_space_check] and [handle_tj] rebind their locals [text] and
    [output] from the nested [push_text], mutate the text state they were
    given and call the visitor. The frame holds the two locals, the text
    state object and the calls the visitor has received, in order. *)
Record Frame : Type := mkFrame {
  f_text : str;
  f_output : str;
  f_st : TextState;
  f_visits : list (str * TextState)
}.

Definition get_text : M Frame str := gets f_text.
Definition get_output : M Frame str := gets f_output.
Definition get_st : M Frame TextState := gets f_st.

Definition set_text (t : str) : M Frame unit :=
  modify (fun fr => mkFrame t (f_output fr) (f_st fr) (f_visits fr)).
Definition set_output (o : str) : M Frame unit :=
  modify (fun fr => mkFrame (f_text fr) o (f_st fr) (f_visits fr)).
Definition set_st (st : TextState) : M Frame unit :=
  modify (fun fr => mkFrame (f_text fr) (f_output fr) st (f_visits fr)).

(** A visitor is a callable of the caller: called with a text and a copy
    of the text state, it returns, or it raises. What it does may depend on
    what it is given and on the calls it has received before, so a visitor is
    the function from these to what the call does: [None] when it returns,
    [Some e] when it raises [e]. It is given a copy and cannot touch the text
    state; it is taken not to touch the configuration or the character map
    either, and what it raises to derive from [Exception]. *)
Definition Visitor : Type :=
  list (str * TextState) -> str -> TextState -> option exn.

(** [visitor_text(t, st.copy())]: the copy is a value, the fields of a
    text state being numbers, booleans, tuples and the shared character
    map. The call is recorded whether it returns or raises. *)
Definition call_visitor (visitor : Visitor) (t : str) : M Frame unit :=
  fun fr =>
    let fr' := mkFrame (f_text fr) (f_output fr) (f_st fr)
                 (f_visits fr ++ [(t, f_st fr)]) in
    match visitor (f_visits fr) t (f_st fr) with
    | None => (fr', Return tt)
    | Some e => (fr', Raise e)
    end.

(** The frame on entry: the arguments bound, no visitor call yet. *)
Definition enter (text output : str) (st : TextState) : Frame :=
  mkFrame text output st [].

Definition newline : char := 10.
Definition space : char := 32.

(** ** The line and space heuristic *)

Section crlf_space_check.
(** The argument [visitor_text]: [None], or a visitor. *)
Variable visitor_text : option Visitor.

Definition crlf_push_text : M Frame unit :=
  text <- get_text ;;
  output <- get_output ;;
  set_output (output ++ text ++ [newline]) ;;;
  match visitor_text with
  | Some visitor => call_visitor visitor (text ++ [newline])
  | None => ret tt
  end ;;;
  set_text [].

(** [(output + text)[-1]]. *)
Definition last_of_buffers : M Frame char :=
  text <- get_text ;;
  output <- get_output ;;
  last_index (output ++ text).

(** One of the four orientation branches: [brk] is the test of the line
    break, [adv] the delta along the advance axis and [cross] the delta
    along the other one. *)
Definition crlf_branch (brk : bool) (adv cross f : float) (st : TextState)
  : M Frame unit :=
  if brk then
    c <- last_of_buffers ;;
    if negb (c =? newline) then crlf_push_text else ret tt
  else if (abs adv <? f * 0.3)%float then
    if gtb (abs cross) (space_width st * f * 15)%float then
      c <- last_of_buffers ;;
      if negb (c =? space) then
        text <- get_text ;; set_text (text ++ [space])
      else ret tt
    else ret tt
  else ret tt.

Definition crlf_space_check_body (cmtm_prev : Mat * Mat)
    (orientations : list Z) (processing_TJ_op : bool)
  : M Frame (str * str * Mat * Mat) :=
  st <- get_st ;;
  let cm_prev := fst cmtm_prev in
  let tm_prev := snd cmtm_prev in
  let m_prev := mult tm_prev cm_prev in
  let m := mult (tm_matrix st) (cm_matrix st) in
  let orientation := orient m in
  let delta_x := (m4 m - m4 m_prev)%float in
  let delta_y := (m5 m - m5 m_prev)%float in
  k <- lift (math_sqrt (abs (m0 m * m3 m) + abs (m1 m * m2 m))) ;;
  let f := (font_size st * k)%float in
  let cm_prev := m in
  (if bool_decide (orientation ∈ orientations) then ret tt
   else raise OrientationNotFoundError) ;;;
  try_except
    (if orientation =? 0 then
       crlf_branch (delta_y <? -0.8 * f)%float delta_y delta_x f st
     else if orientation =? 180 then
       crlf_branch (gtb delta_y (0.8 * f)) delta_y delta_x f st
     else if orientation =? 90 then
       crlf_branch (gtb delta_x (0.8 * f)) delta_x delta_y f st
     else if orientation =? 270 then
       crlf_branch (delta_x <? -0.8 * f)%float delta_x delta_y f st
     else ret tt)
    (fun _ => ret tt) ;;;
  st <- get_st ;;
  let tm_prev := tm_matrix st in
  let cm_prev := cm_matrix st in
  text <- get_text ;;
  output <- get_output ;;
  ret (text, output, cm_prev, tm_prev).

Definition crlf_space_check (text : str) (st : TextState)
    (cmtm_prev : Mat * Mat) (orientations : list Z) (output : str)
    (processing_TJ_op : bool)
  : Frame * outcome (str * str * Mat * Mat) :=
  crlf_space_check_body cmtm_prev orientations processing_TJ_op
    (enter text output st).
End crlf_space_check.

(** ** Decoding and bidi accumulation *)

(** An element of the operand list: a [str] (a [TextStringObject] is one) or
    a [bytes] value. *)
Inductive Operand : Set :=
| OpStr (s : str)
| OpBytes (b : bytes).

Definition isinstance_str (op : Operand) : bool :=
  match op with OpStr _ => true | OpBytes _ => false end.

(** [l[0]]. *)
Definition index0 {S A} (l : list A) : M S A :=
  match l with
  | [] => raise IndexError
  | x :: _ => ret x
  end.

(** [bytes((x,)).decode()]: UTF-8, strict, of a single byte. *)
Definition decode_single_byte (x : Z) : outcome str :=
  if x <? 128 then Return [x] else Raise UnicodeDecodeError.

(** The name of the codec tried when the named one has failed. *)
Definition alternate_encoding (name : string) : string :=
  if String.eqb name "charmap" then "utf-16-be"%string else "charmap"%string.

(** [try: ... except Exception: ...] around a computation without state. *)
Definition or_else {A} (o : outcome A) (alt : outcome A) : outcome A :=
  match o with
  | Return a => Return a
  | Raise _ => alt
  end.

Section handle_tj.
(** [tt.decode(name, "surrogatepass")]: Python's codec registry. *)
Variable bytes_decode : string -> bytes -> outcome str.
(** [encode_pdfdocencoding], imported from [pypdf.generic]. *)
Variable encode_pdfdocencoding : str -> outcome bytes.
(** The configuration globals, as they are during the call. *)
Variable config : RtlConfig.
Variable processing_TJ_op : bool.
(** The argument [visitor_text]: [None], or a visitor. *)
Variable visitor_text : option Visitor.

Definition tj_push_text : M Frame unit :=
  text <- get_text ;;
  output <- get_output ;;
  set_output (output ++ text) ;;;
  match visitor_text with
  | Some visitor => call_visitor visitor text
  | None => ret tt
  end ;;;
  (if processing_TJ_op then
     st <- get_st ;;
     set_st (set_text_offset (text_offset st + float_of_len text)%float st)
   else ret tt) ;;;
  set_text [].

(** Decoding under a table: each byte through the table, or as a single
    UTF-8 byte when the table has no entry for it; the pieces joined. *)
Definition decode_table (table : gmap Z str) (tt : bytes) : outcome str :=
  match
    map_outcome
      (fun x => match table !! x with
                | Some s => Return s
                | None => decode_single_byte x
                end)
      (map byte_int tt)
  with
  | Return pieces => Return (concat pieces)
  | Raise e => Raise e
  end.

Definition decode_operand (enc : Encoding) (tt : bytes) : outcome str :=
  match enc with
  | EncName name =>
      or_else (bytes_decode name tt) (bytes_decode (alternate_encoding name) tt)
  | EncTable table => decode_table table tt
  end.

(** [[map_dict[x] if x in map_dict else x for x in t]]. *)
Definition substitute (map_dict : gmap str str) (t : str) : list str :=
  map (fun x => match map_dict !! [x] with Some y => y | None => [x] end) t.

(** The code point a unit is classified by. *)
Definition unit_code (x : str) : Z :=
  match x with
  | [c] => c
  | _ => 1
  end.

(** The test of the characters that keep the current inserting order. *)
Definition keeps_order (xx : Z) : bool :=
  (xx <=? 0x2F)
  || ((0x3A <=? xx) && (xx <=? 0x40))
  || ((0x2000 <=? xx) && (xx <=? 0x206F))
  || ((0x20A0 <=? xx) && (xx <=? 0x21FF))
  || bool_decide (xx ∈ CUSTOM_RTL_SPECIAL_CHARS config).

(** The test of the right-to-left characters. *)
Definition is_rtl (xx : Z) : bool :=
  ((0x0590 <=? xx) && (xx <=? 0x08FF))
  || ((0xFB1D <=? xx) && (xx <=? 0xFDFF))
  || ((0xFE70 <=? xx) && (xx <=? 0xFEFF))
  || ((CUSTOM_RTL_MIN config <=? xx) && (xx <=? CUSTOM_RTL_MAX config)).

(** The body of the loop over the units. *)
Definition tj_unit (x : str) : M Frame unit :=
  let xx := unit_code x in
  if keeps_order xx then
    st <- get_st ;;
    text <- get_text ;;
    set_text (if rtl_dir st then x ++ text else text ++ x)
  else if is_rtl xx then
    st <- get_st ;;
    (if negb (rtl_dir st) then
       set_st (set_rtl_dir true st) ;;; tj_push_text
     else ret tt) ;;;
    text <- get_text ;;
    set_text (x ++ text)
  else
    st <- get_st ;;
    (if rtl_dir st then
       set_st (set_rtl_dir false st) ;;; tj_push_text
     else ret tt) ;;;
    text <- get_text ;;
    set_text (text ++ x).

Definition handle_tj_body (operands : list Operand) (orientations : list Z)
  : M Frame str :=
  st <- get_st ;;
  let m := mult (tm_matrix st) (cm_matrix st) in
  let orientation := orient m in
  (if bool_decide (orientation ∈ orientations) && (0 <? Z.of_nat (length operands))
   then
     op <- index0 operands ;;
     match op with
     | OpStr s =>
         text <- get_text ;; set_text (text ++ s)
     | _ =>
         tt <- match op with
               | OpStr s => lift (encode_pdfdocencoding s)
               | OpBytes b => ret b
               end ;;
         t <- lift (decode_operand (encoding (cmap st)) tt) ;;
         for_each (substitute (map_dict (cmap st)) t) tj_unit
     end
   else ret tt) ;;;
  get_text.

(** The final frame and what the call returns or raises. The caller sees
    the returned pending text, the text state object and the visitor
    calls; [f_output] is the last value of the local [output]. *)
Definition handle_tj (text : str) (operands : list Operand) (st : TextState)
    (orientations : list Z) (output : str)
  : Frame * outcome str :=
  handle_tj_body operands orientations (enter text output st).
End handle_tj.

(** ** A codec registry to run the examples with

    The two codecs [handle_tj] names itself, as CPython decodes them with
    the [surrogatepass] handler; any other name is unknown here. *)

(** [charmap] without a table maps each byte to the code point of the same
    value, and never fails. *)
Definition charmap_decode (b : bytes) : str := map byte_int b.

(** The 16-bit units of a big-endian sequence: an odd byte left over is
    truncated data. *)
Fixpoint utf16be_units (b : bytes) : outcome (list Z) :=
  match b with
  | [] => Return []
  | [_] => Raise UnicodeDecodeError
  | hi :: lo :: rest =>
      match utf16be_units rest with
      | Return us => Return ((256 * byte_int hi + byte_int lo) :: us)
      | Raise e => Raise e
      end
  end.

Definition is_high_surrogate (u : Z) : bool := (0xD800 <=? u) && (u <=? 0xDBFF).
Definition is_low_surrogate (u : Z) : bool := (0xDC00 <=? u) && (u <=? 0xDFFF).

(** A surrogate pair is one character; a lone surrogate passes. *)
Fixpoint join_surrogates (us : list Z) : str :=
  match us with
  | [] => []
  | u :: rest =>
      match rest with
      | v :: rest' =>
          if is_high_surrogate u && is_low_surrogate v
          then (0x10000 + (u - 0xD800) * 0x400 + (v - 0xDC00)) :: join_surrogates rest'
          else u :: join_surrogates rest
      | [] => [u]
      end
  end.

Definition py_bytes_decode (name : string) (b : bytes) : outcome str :=
  if String.eqb name "charmap" then Return (charmap_decode b)
  else if String.eqb name "utf-16-be" then
    match utf16be_units b with
    | Return us => Return (join_surrogates us)
    | Raise e => Raise e
    end
  else Raise LookupError.

(** * Properties *)

(** ** Signs of binary64 results

    The thresholds of the heuristic are products with the glyph height; what
    the proofs need of them is their sign, which the rounding keeps. *)

Definition is_neg (x : spec_float) : bool :=
  match x with
  | S754_finite true _ _ | S754_infinity true => true
  | _ => false
  end.

Definition is_pos (x : spec_float) : bool :=
  match x with
  | S754_finite false _ _ | S754_infinity false => true
  | _ => false
  end.

Definition zero_or_nan (x : spec_float) : bool :=
  match x with
  | S754_zero _ | S754_nan => true
  | _ => false
  end.

Lemma SFltb_zero_r x s : SFltb x (S754_zero s) = is_neg x.
Proof. destruct x as [ | [] | | [] ? ?]; reflexivity. Qed.

Lemma SFltb_zero_l x s : SFltb (S754_zero s) x = is_pos x.
Proof. destruct x as [ | [] | | [] ? ?]; reflexivity. Qed.

Lemma SFltb_nan_r x : SFltb x S754_nan = false.
Proof. destruct x; reflexivity. Qed.

Lemma round_aux_sign (s : bool) (mx ex : Z) (lx : location) :
  (if s then is_pos (binary_round_aux prec emax s mx ex lx)
   else is_neg (binary_round_aux prec emax s mx ex lx)) = false.
Proof.
  unfold binary_round_aux.
  destruct (shr_fexp prec emax mx ex lx) as [mrs' e'].
  destruct (shr_fexp prec emax _ e' loc_Exact) as [mrs'' e''].
  destruct (shr_m mrs''); [ | destruct (e'' <=? emax - prec)%Z | ];
    destruct s; reflexivity.
Qed.

Lemma SFmul_not_neg x y :
  is_neg x = false -> is_neg y = false -> is_neg (SF64mul x y) = false.
Proof.
  destruct x as [ sx | [] | | [] mx ex ], y as [ sy | [] | | [] my ey ];
    try discriminate; try reflexivity; intros _ _.
  apply (round_aux_sign false).
Qed.

Lemma SFmul_not_pos x y :
  is_pos x = false -> is_neg y = false -> is_pos (SF64mul x y) = false.
Proof.
  destruct x as [ sx | [] | | [] mx ex ], y as [ sy | [] | | [] my ey ];
    try discriminate; try reflexivity; intros _ _.
  apply (round_aux_sign true).
Qed.

Lemma SFadd_abs_not_neg x y : is_neg (SF64add (SFabs x) (SFabs y)) = false.
Proof.
  destruct x as [ sx | sx | | sx mx ex ], y as [ sy | sy | | sy my ey ];
    try reflexivity.
  cbn -[binary_normalize shl_align Z.min].
  set (a := fst (shl_align mx ex _)). set (b := fst (shl_align my ey _)).
  unfold binary_normalize.
  change (Z.pos a + Z.pos b) with (Z.pos (a + b)).
  cbv beta iota. unfold binary_round. clearbody a b.
  destruct (shl_align _ _ _) as [mz ez].
  apply (round_aux_sign false).
Qed.

Lemma SFsub_diag x : zero_or_nan (SF64sub x x) = true.
Proof.
  destruct x as [ [] | [] | | sx mx ex ]; try reflexivity.
  cbn -[binary_normalize shl_align Z.min Z.sub].
  rewrite Z.sub_diag. reflexivity.
Qed.

Lemma SFabs_zero_or_nan x : zero_or_nan x = true -> zero_or_nan (SFabs x) = true.
Proof. destruct x; auto. Qed.

(** A float that is not below zero: zero of either sign, positive, or not a
    number. *)
Definition not_negative (x : float) : Prop := (x <? 0)%float = false.

(** A float that is a zero of either sign, or not a number. *)
Definition no_movement (x : float) : Prop := zero_or_nan (Prim2SF x) = true.

Lemma not_negative_sign x : not_negative x -> is_neg (Prim2SF x) = false.
Proof.
  unfold not_negative. rewrite ltb_spec.
  change (Prim2SF 0) with (S754_zero false). now rewrite SFltb_zero_r.
Qed.

Lemma ltb_no_movement_l z x :
  no_movement z -> is_pos (Prim2SF x) = false -> (z <? x)%float = false.
Proof.
  unfold no_movement. rewrite ltb_spec. intros Hz Hx.
  destruct (Prim2SF z); try discriminate.
  - now rewrite SFltb_zero_l.
  - reflexivity.
Qed.

Lemma ltb_no_movement_r z x :
  no_movement z -> is_neg (Prim2SF x) = false -> (x <? z)%float = false.
Proof.
  unfold no_movement. rewrite ltb_spec. intros Hz Hx.
  destruct (Prim2SF z); try discriminate.
  - now rewrite SFltb_zero_r.
  - apply SFltb_nan_r.
Qed.

Lemma abs_no_movement z : no_movement z -> no_movement (abs z).
Proof. unfold no_movement. rewrite abs_spec. apply SFabs_zero_or_nan. Qed.

Lemma sub_diag_no_movement x : no_movement (x - x).
Proof. unfold no_movement. rewrite sub_spec. apply SFsub_diag. Qed.

(** The argument of the square root is never negative: no domain error. *)
Lemma math_sqrt_abs_sum x y :
  math_sqrt (abs x + abs y) = Return (PrimFloat.sqrt (abs x + abs y)).
Proof.
  unfold math_sqrt. rewrite ltb_spec, add_spec, !abs_spec.
  change (Prim2SF 0) with (S754_zero false).
  now rewrite SFltb_zero_r, SFadd_abs_not_neg.
Qed.

(** ** The line and space heuristic: what a call does *)

(** The composed current matrix, the glyph height [f] and the deltas, as
    [crlf_space_check] computes them. *)
Definition composed (st : TextState) : Mat := mult (tm_matrix st) (cm_matrix st).

Definition composed_prev (cmtm_prev : Mat * Mat) : Mat :=
  mult (snd cmtm_prev) (fst cmtm_prev).

Definition scale_k (m : Mat) : float :=
  PrimFloat.sqrt (abs (m0 m * m3 m) + abs (m1 m * m2 m)).

Definition glyph_height (st : TextState) : float :=
  (font_size st * scale_k (composed st))%float.

Definition delta_x (st : TextState) (cmtm_prev : Mat * Mat) : float :=
  (m4 (composed st) - m4 (composed_prev cmtm_prev))%float.

Definition delta_y (st : TextState) (cmtm_prev : Mat * Mat) : float :=
  (m5 (composed st) - m5 (composed_prev cmtm_prev))%float.

(** The advance axis is y at 0 and 180 degrees, x at 90 and 270. *)
Definition advance_delta (st : TextState) (cmtm_prev : Mat * Mat) : float :=
  let o := orient (composed st) in
  if (o =? 0) || (o =? 180) then delta_y st cmtm_prev else delta_x st cmtm_prev.

Definition cross_delta (st : TextState) (cmtm_prev : Mat * Mat) : float :=
  let o := orient (composed st) in
  if (o =? 0) || (o =? 180) then delta_x st cmtm_prev else delta_y st cmtm_prev.

(** The advance delta goes against the reading direction by more than
    [0.8 * f]. *)
Definition line_break_test (st : TextState) (cmtm_prev : Mat * Mat) : bool :=
  let o := orient (composed st) in
  let adv := advance_delta st cmtm_prev in
  let f := glyph_height st in
  if (o =? 0) || (o =? 270) then (adv <? -0.8 * f)%float else gtb adv (0.8 * f).

Definition small_advance (st : TextState) (cmtm_prev : Mat * Mat) : bool :=
  (abs (advance_delta st cmtm_prev) <? glyph_height st * 0.3)%float.

Definition wide_gap (st : TextState) (cmtm_prev : Mat * Mat) : bool :=
  gtb (abs (cross_delta st cmtm_prev)) (space_width st * glyph_height st * 15).

(** What a visitor, if there is one, does when called; without a visitor
    nothing is called and nothing raises. *)
Definition has_visitor (visitor_text : option Visitor) : bool :=
  match visitor_text with Some _ => true | None => false end.

Definition visitor_answer (visitor_text : option Visitor)
    (visits : list (str * TextState)) (t : str) (st : TextState) : option exn :=
  match visitor_text with
  | Some visitor => visitor visits t st
  | None => None
  end.

(** A visitor that returns from every call. *)
Definition quiet_visitor : Visitor := fun _ _ _ => None.

(** A visitor that raises at every call. *)
Definition raising_visitor : Visitor := fun _ _ _ => Some ValueError.

(** What the four branches do to the frame, by the tests and the last
    character of the two buffers. When the line is broken, the visitor is
    called after the output has been extended and before the pending text is
    emptied: when it raises, the pending text stays. *)
Definition branch_frame (visitor_text : option Visitor) (brk small wide : bool)
    (text output : str) (st : TextState) : Frame :=
  match last_char (output ++ text) with
  | None => enter text output st
  | Some c =>
      if brk then
        if c =? newline then enter text output st
        else mkFrame
               (match visitor_answer visitor_text [] (text ++ [newline]) st with
                | None => []
                | Some _ => text
                end)
               (output ++ text ++ [newline]) st
               (if has_visitor visitor_text then [(text ++ [newline], st)]
                else [])
      else if small && wide then
        if c =? space then enter text output st
        else mkFrame (text ++ [space]) output st []
      else enter text output st
  end.

Lemma orient_cases m :
  orient m = 0 \/ orient m = 180 \/ orient m = 90 \/ orient m = 270.
Proof.
  unfold orient.
  destruct (gtb _ _); [ now left | ].
  destruct (_ <? _)%float; [ now right; left | ].
  destruct (gtb _ _); [ now right; right; left | now right; right; right ].
Qed.

Lemma crlf_branch_run visitor_text brk adv cross f st text output :
  try_except (crlf_branch visitor_text brk adv cross f st) (fun _ => ret tt)
    (enter text output st)
  = (branch_frame visitor_text brk (abs adv <? f * 0.3)%float
       (gtb (abs cross) (space_width st * f * 15)) text output st,
     Return tt).
Proof.
  unfold crlf_branch, branch_frame, try_except, last_of_buffers, last_index,
    crlf_push_text, bind, get_text, get_output, set_text, set_output,
    call_visitor, gets, modify, ret, raise, enter, has_visitor, visitor_answer.
  destruct brk;
    [ | destruct (abs adv <? f * 0.3)%float;
        [ destruct (gtb (abs cross) (space_width st * f * 15)) | ] ];
    cbn [f_text f_output f_st f_visits andb];
    destruct (last_char (output ++ text)) as [c | ]; cbn; try reflexivity.
  - destruct (c =? newline); cbn; [ reflexivity | ].
    destruct visitor_text as [visitor | ]; [ | reflexivity ].
    cbn. destruct (visitor [] (text ++ [newline]) st); reflexivity.
  - destruct (c =? space); reflexivity.
Qed.

Lemma branch_frame_st visitor_text brk small wide text output st :
  f_st (branch_frame visitor_text brk small wide text output st) = st.
Proof.
  unfold branch_frame.
  repeat match goal with
         | |- context [match ?b with _ => _ end] =>
             lazymatch b with
             | visitor_answer _ _ _ _ => fail
             | has_visitor _ => fail
             | _ => destruct b
             end
         end; reflexivity.
Qed.

(** A call under an accepted orientation returns, with the frame the
    branch of the orientation leaves. *)
Lemma crlf_space_check_accepted visitor_text text st cmtm_prev orientations
    output processing_TJ_op :
  orient (composed st) ∈ orientations ->
  crlf_space_check visitor_text text st cmtm_prev orientations output
    processing_TJ_op
  = let fr := branch_frame visitor_text (line_break_test st cmtm_prev)
                (small_advance st cmtm_prev) (wide_gap st cmtm_prev)
                text output st in
    (fr, Return (f_text fr, f_output fr, cm_matrix st, tm_matrix st)).
Proof.
  intros Hin.
  unfold crlf_space_check, crlf_space_check_body.
  unfold bind at 1. unfold get_st at 1, gets at 1. cbn [enter f_st].
  rewrite math_sqrt_abs_sum.
  unfold bind at 1, lift at 1.
  fold (composed st) (composed_prev cmtm_prev).
  rewrite (bool_decide_eq_true_2 _ Hin).
  unfold bind at 1, ret at 1.
  unfold bind at 1.
  fold (scale_k (composed st)) (glyph_height st).
  fold (delta_x st cmtm_prev) (delta_y st cmtm_prev).
  unfold line_break_test, small_advance, wide_gap, advance_delta, cross_delta.
  destruct (orient_cases (composed st)) as [E | [E | [E | E]]]; rewrite !E;
    cbn [Z.eqb orb Pos.eqb]; rewrite crlf_branch_run;
    unfold bind, get_st, get_text, get_output, gets, ret; cbv zeta;
    now rewrite branch_frame_st.
Qed.

(** A call under an orientation that is not accepted raises, in the frame
    it entered with. *)
Lemma crlf_space_check_refused visitor_text text st cmtm_prev orientations
    output processing_TJ_op :
  orient (composed st) ∉ orientations ->
  crlf_space_check visitor_text text st cmtm_prev orientations output
    processing_TJ_op
  = (enter text output st, Raise OrientationNotFoundError).
Proof.
  intros Hin.
  unfold crlf_space_check, crlf_space_check_body.
  unfold bind at 1. unfold get_st at 1, gets at 1. cbn [enter f_st].
  rewrite math_sqrt_abs_sum.
  unfold bind at 1, lift at 1.
  fold (composed st).
  rewrite (bool_decide_eq_false_2 _ Hin).
  reflexivity.
Qed.

Lemma last_char_app s c : last_char (s ++ [c]) = Some c.
Proof. unfold last_char. rewrite map_app. cbn [map]. now rewrite last_last. Qed.

Lemma last_char_None s : last_char s = None -> s = [].
Proof.
  destruct s as [ | c s _] using rev_ind; [ reflexivity | ].
  now rewrite last_char_app.
Qed.

(** ** Examples to run the heuristic on *)

Definition example_cmap : CharMap :=
  mkCharMap (EncName "charmap") ∅ "F1" None.

(** A text state at the translation [(x, y)], in a 12 point font whose
    space is 250 units wide. *)
Definition state_at (x y : float) : TextState :=
  mkTextState identity_matrix (mkMat 1 0 0 1 x y) example_cmap
    12 100 100 250 0 0 false.

(** The previous pair, at the translation [(x, y)]. *)
Definition prev_at (x y : float) : Mat * Mat := (identity_matrix, mkMat 1 0 0 1 x y).

(** The same text state with another font size. *)
Definition with_font_size (size : float) (st : TextState) : TextState :=
  mkTextState (cm_matrix st) (tm_matrix st) (cmap st) size (char_scale st)
    (space_scale st) (_space_width st) (text_leading st) (text_offset st)
    (rtl_dir st).

Ltac by_computation := vm_compute; first [ reflexivity | exact I | discriminate ].
Ltac accepted := refine (bool_decide_unpack _ _); by_computation.

(** ** C3: the line break at 0 degrees *)

(** C3, as the code has it. Under the orientation 0, accepted, when
    [delta_y] is below [-0.8 * f] and [output + text] is not empty and does
    not end in a newline, [crlf_space_check] appends the pending text and a
    newline to the output and hands the flushed text and a copy of the text
    state to the visitor when there is one. When there is no visitor, or the
    visitor returns, the pending text is then empty. When the visitor raises,
    the exception is swallowed and the call returns with the pending text as
    it was. *)
Theorem C3_line_break_flushes visitor_text text st cmtm_prev orientations output
    processing_TJ_op :
  orient (composed st) = 0 ->
  0 ∈ orientations ->
  (delta_y st cmtm_prev <? -0.8 * glyph_height st)%float = true ->
  output ++ text <> [] ->
  last_char (output ++ text) <> Some newline ->
  (visitor_answer visitor_text [] (text ++ [newline]) st = None ->
   crlf_space_check visitor_text text st cmtm_prev orientations output
     processing_TJ_op
   = (mkFrame [] (output ++ text ++ [newline]) st
        (if has_visitor visitor_text then [(text ++ [newline], st)] else []),
      Return ([], output ++ text ++ [newline], cm_matrix st, tm_matrix st)))
  /\ (forall e,
        visitor_answer visitor_text [] (text ++ [newline]) st = Some e ->
        crlf_space_check visitor_text text st cmtm_prev orientations output
          processing_TJ_op
        = (mkFrame text (output ++ text ++ [newline]) st
             [(text ++ [newline], st)],
           Return (text, output ++ text ++ [newline], cm_matrix st,
                   tm_matrix st))).
Proof.
  intros Ho Hin Hbrk Hne Hnl.
  rewrite crlf_space_check_accepted by (rewrite Ho; exact Hin).
  unfold line_break_test, advance_delta, branch_frame. rewrite Ho.
  cbn [Z.eqb orb]. rewrite Hbrk.
  destruct (last_char (output ++ text)) as [c | ] eqn:Hlast;
    [ | now apply last_char_None in Hlast ].
  destruct (Z.eqb_spec c newline) as [-> | _]; [ now elim Hnl | ].
  split.
  - intros ->. reflexivity.
  - intros e He. rewrite He.
    destruct visitor_text as [visitor | ]; [ reflexivity | discriminate He ].
Qed.

Lemma C3_line_break_flushes_witness :
  crlf_space_check (Some quiet_visitor) [97; 98] (state_at 0 0) (prev_at 0 20)
    [0] [120] false
  = (mkFrame [] [120; 97; 98; 10] (state_at 0 0) [([97; 98; 10], state_at 0 0)],
     Return ([], [120; 97; 98; 10], identity_matrix, mkMat 1 0 0 1 0 0)).
Proof.
  apply (proj1 (C3_line_break_flushes (Some quiet_visitor) [97; 98]
                  (state_at 0 0) (prev_at 0 20) [0] [120] false
                  ltac:(by_computation) ltac:(accepted) ltac:(by_computation)
                  ltac:(discriminate) ltac:(discriminate))).
  reflexivity.
Defined.

(** A visitor that raises: the line is broken in the output, and the
    pending text is returned as it was, not empty. *)
Lemma C3_counterexample :
  orient (composed (state_at 0 0)) = 0
  /\ (delta_y (state_at 0 0) (prev_at 0 20)
       <? -0.8 * glyph_height (state_at 0 0))%float = true
  /\ crlf_space_check (Some raising_visitor) [97; 98] (state_at 0 0)
       (prev_at 0 20) [0] [120] false
     = (mkFrame [97; 98] [120; 97; 98; 10] (state_at 0 0)
          [([97; 98; 10], state_at 0 0)],
        Return ([97; 98], [120; 97; 98; 10], identity_matrix,
                mkMat 1 0 0 1 0 0))
  /\ (forall fr output' cm tm,
        crlf_space_check (Some raising_visitor) [97; 98] (state_at 0 0)
          (prev_at 0 20) [0] [120] false
        <> (fr, Return ([], output', cm, tm))).
Proof.
  assert (crlf_space_check (Some raising_visitor) [97; 98] (state_at 0 0)
            (prev_at 0 20) [0] [120] false
          = (mkFrame [97; 98] [120; 97; 98; 10] (state_at 0 0)
               [([97; 98; 10], state_at 0 0)],
             Return ([97; 98], [120; 97; 98; 10], identity_matrix,
                     mkMat 1 0 0 1 0 0))) as E by by_computation.
  split; [ by_computation | ].
  split; [ by_computation | ].
  split; [ exact E | ].
  intros fr output' cm tm H. rewrite E in H. discriminate H.
Qed.

(** ** C4: the inserted space *)

(** C4. Under an accepted orientation, outside the line break: when the
    advance delta is below [0.3 * f] in absolute value, the cross delta
    above [15 * space_width * f] in absolute value, and the last character of
    [output + text] is not a space, one space is appended to the pending text
    and the output is unchanged; and in every case that neither flushes nor
    meets these three conditions, both buffers are unchanged. *)
Theorem C4_space_insertion visitor_text text st cmtm_prev orientations output
    processing_TJ_op :
  orient (composed st) ∈ orientations ->
  (forall c,
      line_break_test st cmtm_prev = false ->
      small_advance st cmtm_prev = true ->
      wide_gap st cmtm_prev = true ->
      last_char (output ++ text) = Some c -> c <> space ->
      crlf_space_check visitor_text text st cmtm_prev orientations output
        processing_TJ_op
      = (mkFrame (text ++ [space]) output st [],
         Return (text ++ [space], output, cm_matrix st, tm_matrix st)))
  /\ (~ (line_break_test st cmtm_prev = true
         /\ exists c, last_char (output ++ text) = Some c /\ c <> newline) ->
      ~ (small_advance st cmtm_prev = true
         /\ wide_gap st cmtm_prev = true
         /\ exists c, last_char (output ++ text) = Some c /\ c <> space) ->
      crlf_space_check visitor_text text st cmtm_prev orientations output
        processing_TJ_op
      = (enter text output st,
         Return (text, output, cm_matrix st, tm_matrix st))).
Proof.
  intros Hin. rewrite crlf_space_check_accepted by exact Hin.
  unfold branch_frame. split.
  - intros c Hbrk Hsmall Hwide Hlast Hc.
    rewrite Hbrk, Hsmall, Hwide, Hlast. cbn [andb].
    now destruct (Z.eqb_spec c space).
  - intros Hflush Hspace.
    destruct (last_char (output ++ text)) as [c | ]; [ | reflexivity ].
    destruct (line_break_test st cmtm_prev).
    + destruct (Z.eqb_spec c newline) as [-> | Hc]; [ reflexivity | ].
      elim Hflush. eauto.
    + destruct (small_advance st cmtm_prev), (wide_gap st cmtm_prev);
        try reflexivity.
      destruct (Z.eqb_spec c space) as [-> | Hc]; [ reflexivity | ].
      elim Hspace. eauto.
Qed.

Lemma C4_space_insertion_witness :
  crlf_space_check (Some quiet_visitor) [97; 98] (state_at 100 0) (prev_at 0 0) [0; 90] [] false
  = (mkFrame [97; 98; 32] [] (state_at 100 0) [],
     Return ([97; 98; 32], [], identity_matrix, mkMat 1 0 0 1 100 0)).
Proof.
  apply (proj1 (C4_space_insertion (Some quiet_visitor) [97; 98] (state_at 100 0) (prev_at 0 0)
                  [0; 90] [] false ltac:(accepted)) 98);
    by_computation.
Defined.

(** ** C5: the unsupported orientation *)

(** C5. [crlf_space_check] raises [OrientationNotFoundError] exactly when
    the orientation of the composed current matrix is not among the accepted
    ones; it raises nothing else; and when it raises, the pending text, the
    output and the text state are as on entry and the visitor has not been
    called. *)
Theorem C5_unsupported_orientation visitor_text text st cmtm_prev orientations
    output processing_TJ_op :
  let r := crlf_space_check visitor_text text st cmtm_prev orientations output
             processing_TJ_op in
  (snd r = Raise OrientationNotFoundError <-> orient (composed st) ∉ orientations)
  /\ (forall e, snd r = Raise e ->
        e = OrientationNotFoundError /\ fst r = enter text output st).
Proof.
  cbv zeta.
  destruct (decide (orient (composed st) ∈ orientations)) as [Hin | Hout].
  - rewrite crlf_space_check_accepted by exact Hin. cbn [fst snd].
    split; [ split; [ discriminate | intros Hout; now elim Hout ] | discriminate ].
  - rewrite crlf_space_check_refused by exact Hout. cbn [fst snd].
    split; [ now split | ]. intros e [= <-]. now split.
Qed.

(** ** C8: no movement *)

(** Without movement, and with a glyph height that is not negative, no
    line-break test holds. *)
Lemma line_break_test_no_movement st cmtm_prev :
  no_movement (delta_x st cmtm_prev) ->
  no_movement (delta_y st cmtm_prev) ->
  not_negative (glyph_height st) ->
  line_break_test st cmtm_prev = false.
Proof.
  intros Hx Hy Hf. apply not_negative_sign in Hf.
  unfold line_break_test.
  assert (no_movement (advance_delta st cmtm_prev)) as Hadv
    by (unfold advance_delta; now destruct (_ || _)).
  destruct (_ || _).
  - apply ltb_no_movement_l; [ exact Hadv | ].
    rewrite mul_spec. now apply SFmul_not_pos.
  - unfold gtb. apply ltb_no_movement_r; [ exact Hadv | ].
    rewrite mul_spec. now apply SFmul_not_neg.
Qed.

(** Without movement, and with a glyph height and a space width that are
    not negative, the gap is not wide. *)
Lemma wide_gap_no_movement st cmtm_prev :
  no_movement (delta_x st cmtm_prev) ->
  no_movement (delta_y st cmtm_prev) ->
  not_negative (glyph_height st) ->
  not_negative (space_width st) ->
  wide_gap st cmtm_prev = false.
Proof.
  intros Hx Hy Hf Hw.
  apply not_negative_sign in Hf. apply not_negative_sign in Hw.
  unfold wide_gap, gtb.
  apply ltb_no_movement_r.
  - apply abs_no_movement. unfold cross_delta. now destruct (_ || _).
  - rewrite !mul_spec. apply SFmul_not_neg; [ now apply SFmul_not_neg | reflexivity ].
Qed.

Lemma crlf_space_check_no_movement visitor_text text st cmtm_prev orientations
    output processing_TJ_op :
  orient (composed st) ∈ orientations ->
  no_movement (delta_x st cmtm_prev) ->
  no_movement (delta_y st cmtm_prev) ->
  not_negative (glyph_height st) ->
  not_negative (space_width st) ->
  crlf_space_check visitor_text text st cmtm_prev orientations output
    processing_TJ_op
  = (enter text output st, Return (text, output, cm_matrix st, tm_matrix st)).
Proof.
  intros Hin Hx Hy Hf Hw.
  rewrite crlf_space_check_accepted by exact Hin.
  unfold branch_frame.
  rewrite line_break_test_no_movement, wide_gap_no_movement by assumption.
  rewrite andb_false_r.
  now destruct (last_char (output ++ text)).
Qed.

(** C8, as the code has it. When the composed current matrix equals the
    composed previous one, the orientation is accepted, and neither the
    glyph height [f = font_size * k] nor the space width is negative,
    [crlf_space_check] returns the pending text and the output unchanged,
    calls no visitor and leaves the text state alone: at every orientation,
    and with empty buffers too. *)
Theorem C8_no_movement_no_change visitor_text text st cmtm_prev orientations
    output processing_TJ_op :
  orient (composed st) ∈ orientations ->
  composed_prev cmtm_prev = composed st ->
  not_negative (glyph_height st) ->
  not_negative (space_width st) ->
  crlf_space_check visitor_text text st cmtm_prev orientations output
    processing_TJ_op
  = (enter text output st, Return (text, output, cm_matrix st, tm_matrix st)).
Proof.
  intros Hin Hm Hf Hw.
  apply crlf_space_check_no_movement; try assumption.
  - unfold delta_x. rewrite Hm. apply sub_diag_no_movement.
  - unfold delta_y. rewrite Hm. apply sub_diag_no_movement.
Qed.

Lemma C8_no_movement_no_change_witness :
  crlf_space_check (Some quiet_visitor) [97] (state_at 5 7) (prev_at 5 7) [0] [98] true
  = (enter [97] [98] (state_at 5 7),
     Return ([97], [98], identity_matrix, mkMat 1 0 0 1 5 7)).
Proof.
  apply (C8_no_movement_no_change (Some quiet_visitor) [97] (state_at 5 7) (prev_at 5 7) [0]
           [98] true).
  - accepted.
  - by_computation.
  - by_computation.
  - by_computation.
Defined.

(** With a negative font size the glyph height is negative, and a call
    without any movement breaks the line. *)
Lemma C8_counterexample :
  orient (composed (with_font_size (-1) (state_at 0 0))) ∈ [0]
  /\ composed_prev (prev_at 0 0) = composed (with_font_size (-1) (state_at 0 0))
  /\ crlf_space_check None [97] (with_font_size (-1) (state_at 0 0))
       (prev_at 0 0) [0] [] false
     = (mkFrame [] [97; 10] (with_font_size (-1) (state_at 0 0)) [],
        Return ([], [97; 10], identity_matrix, identity_matrix))
  /\ crlf_space_check None [97] (with_font_size (-1) (state_at 0 0))
       (prev_at 0 0) [0] [] false
     <> (enter [97] [] (with_font_size (-1) (state_at 0 0)),
         Return ([97], [], identity_matrix, identity_matrix)).
Proof.
  split; [ accepted | ].
  split; [ by_computation | ].
  split; [ by_computation | vm_compute; discriminate ].
Qed.

(** ** Decoding and bidi accumulation: what a call does *)

Section frames_of_units.
Variable config : RtlConfig.
Variable processing_TJ_op : bool.
(** Whether there is a visitor. *)
Variable visited : bool.

Definition with_text (t : str) (fr : Frame) : Frame :=
  mkFrame t (f_output fr) (f_st fr) (f_visits fr).

Definition with_st (st : TextState) (fr : Frame) : Frame :=
  mkFrame (f_text fr) (f_output fr) st (f_visits fr).

(** The text state after a flush of [t]: the offset moves on under the
    array form of the operator only. *)
Definition after_flush (t : str) (st : TextState) : TextState :=
  if processing_TJ_op
  then set_text_offset (text_offset st + float_of_len t)%float st
  else st.

(** The frame [tj_push_text] leaves when the visitor, if any, returns. *)
Definition flushed (fr : Frame) : Frame :=
  mkFrame [] (f_output fr ++ f_text fr) (after_flush (f_text fr) (f_st fr))
    (if visited then f_visits fr ++ [(f_text fr, f_st fr)]
     else f_visits fr).

(** The frame [tj_push_text] is left in when the visitor raises: the output
    has received the pending text and the call is recorded, the offset has
    not moved and the pending text has not been emptied. *)
Definition interrupted (fr : Frame) : Frame :=
  mkFrame (f_text fr) (f_output fr ++ f_text fr) (f_st fr)
    (f_visits fr ++ [(f_text fr, f_st fr)]).

(** The frame one unit leaves when the visitor, if called, returns. *)
Definition unit_frame (x : str) (fr : Frame) : Frame :=
  if keeps_order config (unit_code x) then
    with_text (if rtl_dir (f_st fr) then x ++ f_text fr else f_text fr ++ x) fr
  else if is_rtl config (unit_code x) then
    let fr1 := if rtl_dir (f_st fr) then fr
               else flushed (with_st (set_rtl_dir true (f_st fr)) fr) in
    with_text (x ++ f_text fr1) fr1
  else
    let fr1 := if rtl_dir (f_st fr)
               then flushed (with_st (set_rtl_dir false (f_st fr)) fr)
               else fr in
    with_text (f_text fr1 ++ x) fr1.

Definition units_frame (units : list str) (fr : Frame) : Frame :=
  fold_left (fun fr x => unit_frame x fr) units fr.

(** The direction a unit turns the flag to, when it does: it then flushes
    the pending text. *)
Definition turns (x : str) (fr : Frame) : option bool :=
  if keeps_order config (unit_code x) then None
  else if is_rtl config (unit_code x) then
    if rtl_dir (f_st fr) then None else Some true
  else
    if rtl_dir (f_st fr) then Some false else None.
End frames_of_units.

Section handle_tj_properties.
Variable bytes_decode : string -> bytes -> outcome str.
Variable encode_pdfdocencoding : str -> outcome bytes.
Variable config : RtlConfig.
Variable processing_TJ_op : bool.
Variable visitor_text : option Visitor.

Local Abbreviation tj_unit' := (tj_unit config processing_TJ_op visitor_text).
Local Abbreviation handle_tj' :=
  (handle_tj bytes_decode encode_pdfdocencoding config processing_TJ_op
     visitor_text).
Local Abbreviation unit_frame' :=
  (unit_frame config processing_TJ_op (has_visitor visitor_text)).
Local Abbreviation units_frame' :=
  (units_frame config processing_TJ_op (has_visitor visitor_text)).

(** The loop over the units, and the return of the pending text. *)
Definition accumulate (units : list str) : M Frame str :=
  bind (for_each units tj_unit') (fun _ => get_text).

(** The last call the visitor received raised [e]. *)
Definition visitor_raised (fr : Frame) (e : exn) : Prop :=
  exists visits t st,
    f_visits fr = visits ++ [(t, st)]
    /\ visitor_answer visitor_text visits t st = Some e.

(** There is no visitor, or it returns from every call. *)
Definition quiet : Prop :=
  forall visits t st, visitor_answer visitor_text visits t st = None.

Lemma tj_push_text_run fr :
  tj_push_text processing_TJ_op visitor_text fr
  = match visitor_answer visitor_text (f_visits fr) (f_text fr) (f_st fr) with
    | None => (flushed processing_TJ_op (has_visitor visitor_text) fr, Return tt)
    | Some e => (interrupted fr, Raise e)
    end.
Proof.
  unfold tj_push_text, flushed, interrupted, after_flush, bind, get_text,
    get_output, get_st, set_output, set_st, set_text, call_visitor, gets,
    modify, ret, visitor_answer, has_visitor.
  destruct fr as [t o st vs]; cbn.
  destruct visitor_text as [visitor | ]; cbn;
    [ destruct (visitor vs t st) | ]; destruct processing_TJ_op; reflexivity.
Qed.

(** One unit: the visitor is called when the unit turns the direction, and
    the unit is lost when the visitor raises. *)
Lemma tj_unit_run x fr :
  tj_unit' x fr
  = match turns config x fr with
    | None => (unit_frame' x fr, Return tt)
    | Some dir =>
        match visitor_answer visitor_text (f_visits fr) (f_text fr)
                (set_rtl_dir dir (f_st fr)) with
        | None => (unit_frame' x fr, Return tt)
        | Some e => (interrupted (with_st (set_rtl_dir dir (f_st fr)) fr), Raise e)
        end
    end.
Proof.
  unfold tj_unit, unit_frame, turns.
  destruct (keeps_order config (unit_code x));
    [ | destruct (is_rtl config (unit_code x)) ];
    destruct fr as [t o st vs]; unfold bind at 1; unfold get_st at 1, gets at 1;
    cbn [f_st f_text f_visits with_st];
    destruct (rtl_dir st); cbn [negb]; try reflexivity;
    unfold bind at 1; unfold bind at 1; unfold set_st at 1, modify at 1;
    rewrite tj_push_text_run; cbn [f_st f_text f_visits];
    match goal with
    | |- context [visitor_answer ?v ?l ?t ?s] => destruct (visitor_answer v l t s)
    end; reflexivity.
Qed.

Lemma tj_unit_returns x fr fr' :
  tj_unit' x fr = (fr', Return tt) -> fr' = unit_frame' x fr.
Proof.
  rewrite tj_unit_run.
  destruct (turns config x fr) as [dir | ]; [ | now intros [= <-] ].
  destruct (visitor_answer _ _ _ _); [ discriminate | now intros [= <-] ].
Qed.

Lemma tj_unit_raises x fr fr' e :
  tj_unit' x fr = (fr', Raise e) ->
  exists dir,
    fr' = interrupted (with_st (set_rtl_dir dir (f_st fr)) fr)
    /\ visitor_answer visitor_text (f_visits fr) (f_text fr)
         (set_rtl_dir dir (f_st fr)) = Some e.
Proof.
  rewrite tj_unit_run.
  destruct (turns config x fr) as [dir | ]; [ | discriminate ].
  destruct (visitor_answer _ _ _ _) as [e' | ] eqn:Ha; [ | discriminate ].
  intros [= <- <-]. eauto.
Qed.

Lemma tj_unit_quiet x fr :
  quiet -> tj_unit' x fr = (unit_frame' x fr, Return tt).
Proof.
  intros Hq. rewrite tj_unit_run.
  destruct (turns config x fr); [ now rewrite Hq | reflexivity ].
Qed.

Lemma for_each_cons x units fr :
  for_each (x :: units) tj_unit' fr
  = match tj_unit' x fr with
    | (fr1, Return _) => for_each units tj_unit' fr1
    | (fr1, Raise e) => (fr1, Raise e)
    end.
Proof. reflexivity. Qed.

(** A run that returns leaves the frame of the units. *)
Lemma for_each_returns units fr fr' :
  for_each units tj_unit' fr = (fr', Return tt) -> fr' = units_frame' units fr.
Proof.
  revert fr. induction units as [ | x units IH]; intros fr.
  - now intros [= <-].
  - rewrite for_each_cons.
    destruct (tj_unit' x fr) as [fr1 [[] | e]] eqn:Hx; [ | discriminate ].
    apply tj_unit_returns in Hx. subst fr1. apply IH.
Qed.

Lemma for_each_quiet units fr :
  quiet -> for_each units tj_unit' fr = (units_frame' units fr, Return tt).
Proof.
  intros Hq. revert fr. induction units as [ | x units IH]; intros fr;
    [ reflexivity | ].
  rewrite for_each_cons, tj_unit_quiet by exact Hq. apply IH.
Qed.

(** What holds of the frame after every unit, and in the frame a raising
    visitor leaves, holds at the end of the loop, however it ends. *)
Lemma for_each_invariant (P : Frame -> Prop) :
  (forall x fr, P fr -> P (unit_frame' x fr)) ->
  (forall dir fr e,
      visitor_answer visitor_text (f_visits fr) (f_text fr)
        (set_rtl_dir dir (f_st fr)) = Some e ->
      P fr -> P (interrupted (with_st (set_rtl_dir dir (f_st fr)) fr))) ->
  forall units fr, P fr -> P (fst (for_each units tj_unit' fr)).
Proof.
  intros Hunit Hint units.
  induction units as [ | x units IH]; intros fr Hfr; [ exact Hfr | ].
  rewrite for_each_cons.
  destruct (tj_unit' x fr) as [fr1 [[] | e]] eqn:Hx.
  - apply tj_unit_returns in Hx. subst fr1. apply IH, Hunit, Hfr.
  - apply tj_unit_raises in Hx as (dir & -> & Ha). cbn [fst]. eauto.
Qed.

(** A run that raises: the visitor has raised, at its last call. *)
Lemma for_each_raises units fr fr' e :
  for_each units tj_unit' fr = (fr', Raise e) -> visitor_raised fr' e.
Proof.
  revert fr. induction units as [ | x units IH]; intros fr; [ discriminate | ].
  rewrite for_each_cons.
  destruct (tj_unit' x fr) as [fr1 [[] | e']] eqn:Hx.
  - apply IH.
  - intros [= <- <-]. apply tj_unit_raises in Hx as (dir & -> & Ha).
    unfold visitor_raised, interrupted, with_st. cbn [f_visits f_text f_st].
    eauto.
Qed.

Lemma accumulate_run units fr :
  accumulate units fr
  = match for_each units tj_unit' fr with
    | (fr', Return _) => (fr', Return (f_text fr'))
    | (fr', Raise e) => (fr', Raise e)
    end.
Proof. reflexivity. Qed.

Lemma accumulate_returns units fr fr' text' :
  accumulate units fr = (fr', Return text') ->
  fr' = units_frame' units fr /\ text' = f_text fr'.
Proof.
  rewrite accumulate_run.
  destruct (for_each units tj_unit' fr) as [fr1 [[] | e]] eqn:Hrun;
    [ | discriminate ].
  intros [= <- <-]. split; [ now apply for_each_returns | reflexivity ].
Qed.

Lemma accumulate_raises units fr fr' e :
  accumulate units fr = (fr', Raise e) -> visitor_raised fr' e.
Proof.
  rewrite accumulate_run.
  destruct (for_each units tj_unit' fr) as [fr1 [[] | e']] eqn:Hrun;
    [ discriminate | ].
  intros [= <- <-]. now apply for_each_raises in Hrun.
Qed.

Lemma accumulate_quiet units fr :
  quiet ->
  accumulate units fr
  = (units_frame' units fr, Return (f_text (units_frame' units fr))).
Proof. intros Hq. now rewrite accumulate_run, for_each_quiet. Qed.

Lemma length_positive {A} (x : A) l : (0 <? Z.of_nat (length (x :: l))) = true.
Proof. cbn [length]. apply Z.ltb_lt. lia. Qed.

(** Under an orientation that is not accepted nothing happens. *)
Lemma handle_tj_refused text operands st orientations output :
  orient (composed st) ∉ orientations ->
  handle_tj' text operands st orientations output
  = (enter text output st, Return text).
Proof.
  intros Hout. unfold handle_tj, handle_tj_body.
  unfold bind at 1. unfold get_st at 1, gets at 1. cbn [enter f_st].
  fold (composed st). rewrite (bool_decide_eq_false_2 _ Hout).
  reflexivity.
Qed.

Lemma handle_tj_no_operand text st orientations output :
  handle_tj' text [] st orientations output = (enter text output st, Return text).
Proof.
  unfold handle_tj, handle_tj_body.
  unfold bind at 1. unfold get_st at 1, gets at 1. cbn [enter f_st length].
  rewrite andb_false_r. reflexivity.
Qed.

(** A native string is appended as it is. *)
Lemma handle_tj_str text s rest st orientations output :
  orient (composed st) ∈ orientations ->
  handle_tj' text (OpStr s :: rest) st orientations output
  = (mkFrame (text ++ s) output st [], Return (text ++ s)).
Proof.
  intros Hin. unfold handle_tj, handle_tj_body.
  unfold bind at 1. unfold get_st at 1, gets at 1. cbn [enter f_st].
  fold (composed st). rewrite (bool_decide_eq_true_2 _ Hin), length_positive.
  reflexivity.
Qed.

(** A bytes operand is decoded, substituted and accumulated unit by
    unit. *)
Lemma handle_tj_bytes text tt rest st orientations output :
  orient (composed st) ∈ orientations ->
  handle_tj' text (OpBytes tt :: rest) st orientations output
  = match decode_operand bytes_decode (encoding (cmap st)) tt with
    | Raise e => (enter text output st, Raise e)
    | Return t =>
        accumulate (substitute (map_dict (cmap st)) t) (enter text output st)
    end.
Proof.
  intros Hin. unfold handle_tj, handle_tj_body.
  unfold bind at 1. unfold get_st at 1, gets at 1. cbn [enter f_st].
  fold (composed st). rewrite (bool_decide_eq_true_2 _ Hin), length_positive.
  cbn [andb index0].
  destruct (decode_operand _ _ _) as [t | e] eqn:Hd.
  - rewrite accumulate_run. unfold bind, ret, lift, get_text, gets. cbn.
    rewrite Hd.
    destruct (for_each _ _ _) as [fr' [[] | e]]; reflexivity.
  - unfold bind, ret, lift. cbn. now rewrite Hd.
Qed.
End handle_tj_properties.

(** ** Examples to run the decoding on *)

(** A text state whose character map decodes through an empty table and
    substitutes nothing. *)
Definition table_state : TextState :=
  mkTextState identity_matrix identity_matrix
    (mkCharMap (EncTable ∅) ∅ "F1" None) 12 100 100 250 0 0 false.

(** A text state whose character map names a codec and substitutes
    nothing. *)
Definition named_state (name : string) : TextState :=
  mkTextState identity_matrix identity_matrix
    (mkCharMap (EncName name) ∅ "F1" None) 12 100 100 250 0 0 false.

(** A text state turned by a quarter: its orientation is 90. *)
Definition turned_state : TextState :=
  mkTextState identity_matrix (mkMat 0 1 (-1) 0 0 0) example_cmap
    12 100 100 250 0 0 false.

(** An encoder for the examples: it refuses everything. No example depends
    on what it answers. *)
Definition no_encoder (s : str) : outcome bytes := Raise UnicodeEncodeError.

Ltac refused := refine (bool_decide_eq_false_1 _ _); by_computation.

(** ** C6: the operand skipped under an unsupported orientation *)

(** C6. Whatever the operands, when the orientation of the composed
    current matrix is not among the accepted ones, [handle_tj] does not
    raise, returns the pending text as it was, appends nothing to the output,
    calls no visitor and leaves the text state as it was. *)
Theorem C6_unsupported_orientation_skips bytes_decode encode_pdfdocencoding
    config processing_TJ_op visitor_text text operands st orientations output :
  orient (composed st) ∉ orientations ->
  handle_tj bytes_decode encode_pdfdocencoding config processing_TJ_op
    visitor_text text operands st orientations output
  = (enter text output st, Return text).
Proof. apply handle_tj_refused. Qed.

Lemma C6_unsupported_orientation_skips_witness :
  handle_tj py_bytes_decode no_encoder default_config true (Some quiet_visitor) [97]
    [OpBytes [Byte.x41]] turned_state [0; 180] [98]
  = (enter [97] [98] turned_state, Return [97]).
Proof.
  apply (C6_unsupported_orientation_skips py_bytes_decode no_encoder
           default_config true (Some quiet_visitor) [97] [OpBytes [Byte.x41]] turned_state
           [0; 180] [98]).
  refused.
Defined.

(** ** C10: only the first operand counts *)

(** C10. Two calls of [handle_tj] that agree on the first operand and on
    everything else leave the same frame and return the same, whatever
    operands follow; and a call with no operand returns the pending text as
    it was and changes nothing. *)
Theorem C10_first_operand_only bytes_decode encode_pdfdocencoding config
    processing_TJ_op visitor_text text op rest1 rest2 st orientations output :
  handle_tj bytes_decode encode_pdfdocencoding config processing_TJ_op
    visitor_text text (op :: rest1) st orientations output
  = handle_tj bytes_decode encode_pdfdocencoding config processing_TJ_op
      visitor_text text (op :: rest2) st orientations output
  /\ handle_tj bytes_decode encode_pdfdocencoding config processing_TJ_op
       visitor_text text [] st orientations output
     = (enter text output st, Return text).
Proof.
  split; [ | apply handle_tj_no_operand ].
  destruct (decide (orient (composed st) ∈ orientations)) as [Hin | Hout].
  - destruct op as [s | tt].
    + now rewrite !handle_tj_str.
    + now rewrite !handle_tj_bytes.
  - now rewrite !handle_tj_refused.
Qed.

(** ** C1: a native string operand *)

(** C1, as the code has it. Under an accepted orientation a native string
    operand is appended as it is to the end of the pending text: it is not
    encoded, decoded or substituted, no character of it is classified, nothing
    is flushed and the text state stays as it was. Only a bytes operand is
    decoded, substituted and accumulated unit by unit. *)
Theorem C1_native_string_appended bytes_decode encode_pdfdocencoding config
    processing_TJ_op visitor_text text rest st orientations output :
  orient (composed st) ∈ orientations ->
  (forall s,
      handle_tj bytes_decode encode_pdfdocencoding config processing_TJ_op
        visitor_text text (OpStr s :: rest) st orientations output
      = (mkFrame (text ++ s) output st [], Return (text ++ s)))
  /\ (forall tt,
        handle_tj bytes_decode encode_pdfdocencoding config processing_TJ_op
          visitor_text text (OpBytes tt :: rest) st orientations output
        = match decode_operand bytes_decode (encoding (cmap st)) tt with
          | Raise e => (enter text output st, Raise e)
          | Return t =>
              accumulate config processing_TJ_op visitor_text
                (substitute (map_dict (cmap st)) t) (enter text output st)
          end)
  /\ (quiet visitor_text ->
      forall tt,
        handle_tj bytes_decode encode_pdfdocencoding config processing_TJ_op
          visitor_text text (OpBytes tt :: rest) st orientations output
        = match decode_operand bytes_decode (encoding (cmap st)) tt with
          | Raise e => (enter text output st, Raise e)
          | Return t =>
              let fr := units_frame config processing_TJ_op
                          (has_visitor visitor_text)
                          (substitute (map_dict (cmap st)) t)
                          (enter text output st) in
              (fr, Return (f_text fr))
          end).
Proof.
  intros Hin. split; [ | split ].
  - intros s. now apply handle_tj_str.
  - intros tt. now apply handle_tj_bytes.
  - intros Hq tt. rewrite handle_tj_bytes by exact Hin.
    destruct (decode_operand _ _ _); [ | reflexivity ].
    now rewrite accumulate_quiet.
Qed.

Lemma C1_native_string_appended_witness :
  handle_tj py_bytes_decode no_encoder default_config true (Some quiet_visitor) [65]
    [OpStr [1488; 66]] table_state [0] []
  = (mkFrame [65; 1488; 66] [] table_state [], Return [65; 1488; 66]).
Proof.
  apply (proj1 (C1_native_string_appended py_bytes_decode no_encoder
                  default_config true (Some quiet_visitor) [65] [] table_state [0] []
                  ltac:(accepted)) [1488; 66]).
Defined.

(** No bytes operand gives what the native string gives: under an empty
    table every decoded character is below 128, and so is all the pending
    text a bytes operand can leave. *)
Definition ascii_only (s : str) : Prop := Forall (fun c => c < 128) s.

Lemma decode_pieces_ascii (l : list Z) pieces :
  map_outcome
    (fun x => match (∅ : gmap Z str) !! x with
              | Some s => Return s
              | None => decode_single_byte x
              end) l = Return pieces ->
  ascii_only (concat pieces).
Proof.
  revert pieces. induction l as [ | x l IH]; intros pieces; cbn [map_outcome].
  - intros [= <-]. constructor.
  - rewrite lookup_empty. unfold decode_single_byte.
    destruct (Z.ltb_spec x 128) as [Hx | _]; [ | discriminate ].
    destruct (map_outcome _ l) as [ys | e]; [ | discriminate ].
    intros [= <-]. cbn [concat app]. constructor; [ exact Hx | now apply IH ].
Qed.

Lemma decode_table_empty_ascii tt t :
  decode_table ∅ tt = Return t -> ascii_only t.
Proof.
  unfold decode_table.
  destruct (map_outcome _ _) as [pieces | e] eqn:Hp; [ | discriminate ].
  intros [= <-]. now apply decode_pieces_ascii in Hp.
Qed.

Lemma substitute_empty t : substitute ∅ t = map (fun c => [c]) t.
Proof.
  unfold substitute. apply map_ext. intros c. now rewrite lookup_empty.
Qed.

Lemma unit_frame_ascii config processing_TJ_op visitor_text c fr :
  c < 128 ->
  ascii_only (f_text fr) ->
  ascii_only (f_text (unit_frame config processing_TJ_op visitor_text [c] fr)).
Proof.
  intros Hc Hfr. unfold ascii_only in *.
  assert (Forall (fun c => c < 128) [c]) as Hu by now constructor.
  unfold unit_frame, flushed, with_text, with_st.
  repeat match goal with
         | |- context [if ?b then _ else _] => destruct b
         end;
    cbn [f_text]; rewrite ?app_nil_r; try apply Forall_app; auto.
Qed.

Lemma units_frame_ascii config processing_TJ_op visitor_text t fr :
  ascii_only t ->
  ascii_only (f_text fr) ->
  ascii_only
    (f_text (units_frame config processing_TJ_op visitor_text
               (map (fun c => [c]) t) fr)).
Proof.
  intros Ht. revert fr. induction Ht as [ | c t Hc Ht IH]; intros fr Hfr.
  - exact Hfr.
  - cbn [map]. unfold units_frame. cbn [fold_left].
    apply IH. now apply unit_frame_ascii.
Qed.

(** The native string [U+05D0] is returned as the pending text, and no
    bytes operand whatever, so none an encoder could give, leads there: the
    string has not been through the encoding and the decoding. *)
Lemma C1_counterexample :
  orient (composed table_state) ∈ [0]
  /\ (forall encode,
        handle_tj py_bytes_decode encode default_config false None []
          [OpStr [1488]] table_state [0] []
        = (mkFrame [1488] [] table_state [], Return [1488]))
  /\ (forall encode tt,
        handle_tj py_bytes_decode encode default_config false None []
          [OpBytes tt] table_state [0] []
        <> (mkFrame [1488] [] table_state [], Return [1488])).
Proof.
  assert (orient (composed table_state) ∈ [0]) as Hin by accepted.
  split; [ exact Hin | split ].
  - intros encode. now rewrite handle_tj_str.
  - intros encode tt. rewrite handle_tj_bytes by exact Hin.
    change (encoding (cmap table_state)) with (EncTable ∅).
    change (map_dict (cmap table_state)) with (∅ : gmap str str).
    cbn [decode_operand].
    destruct (decode_table ∅ tt) as [t | e] eqn:Ht; [ | discriminate ].
    apply decode_table_empty_ascii in Ht.
    rewrite substitute_empty.
    rewrite accumulate_quiet by (intros ? ? ?; reflexivity).
    cbn [has_visitor]. intros H.
    apply (f_equal snd) in H. cbn [snd] in H. injection H as Htext.
    pose proof (units_frame_ascii default_config false false t
                  (enter [] [] table_state) Ht (List.Forall_nil _)) as Hascii.
    rewrite Htext in Hascii. inversion Hascii as [ | ? ? Hc _]. lia.
Qed.

(** ** C7: the decode fallback *)

(** C7. For a bytes operand under a character map that names an encoding,
    when decoding under that name fails, [handle_tj] decodes under the
    alternate: [utf-16-be] when the name is [charmap], [charmap] otherwise.
    When the alternate decodes, the call goes on with its characters, exactly
    as the loop accumulates them: it returns whenever the visitor, if any,
    returns, and if it raises it is the visitor that has raised, not the
    decoding. When the alternate fails too, its error is raised and nothing
    has changed. *)
Theorem C7_decode_fallback bytes_decode encode_pdfdocencoding config
    processing_TJ_op visitor_text text tt rest st orientations output name e :
  orient (composed st) ∈ orientations ->
  encoding (cmap st) = EncName name ->
  bytes_decode name tt = Raise e ->
  (alternate_encoding "charmap" = "utf-16-be"%string
   /\ (name <> "charmap"%string -> alternate_encoding name = "charmap"%string))
  /\ (forall t,
        bytes_decode (alternate_encoding name) tt = Return t ->
        handle_tj bytes_decode encode_pdfdocencoding config processing_TJ_op
          visitor_text text (OpBytes tt :: rest) st orientations output
        = accumulate config processing_TJ_op visitor_text
            (substitute (map_dict (cmap st)) t) (enter text output st)
        /\ (quiet visitor_text ->
            let fr := units_frame config processing_TJ_op
                        (has_visitor visitor_text)
                        (substitute (map_dict (cmap st)) t)
                        (enter text output st) in
            handle_tj bytes_decode encode_pdfdocencoding config
              processing_TJ_op visitor_text text (OpBytes tt :: rest) st
              orientations output
            = (fr, Return (f_text fr)))
        /\ (forall fr e',
              handle_tj bytes_decode encode_pdfdocencoding config
                processing_TJ_op visitor_text text (OpBytes tt :: rest) st
                orientations output = (fr, Raise e') ->
              visitor_raised visitor_text fr e'))
  /\ (forall e',
        bytes_decode (alternate_encoding name) tt = Raise e' ->
        handle_tj bytes_decode encode_pdfdocencoding config processing_TJ_op
          visitor_text text (OpBytes tt :: rest) st orientations output
        = (enter text output st, Raise e')).
Proof.
  intros Hin Henc Hfail. split; [ split | split ].
  - reflexivity.
  - intros Hname. unfold alternate_encoding.
    destruct (String.eqb_spec name "charmap"); [ contradiction | reflexivity ].
  - intros t Halt. rewrite handle_tj_bytes by exact Hin.
    rewrite Henc. cbn [decode_operand]. rewrite Hfail, Halt. cbn [or_else].
    split; [ reflexivity | split ].
    + intros Hq. cbv zeta. now apply accumulate_quiet.
    + intros fr e'. apply accumulate_raises.
  - intros e' Halt. rewrite handle_tj_bytes by exact Hin.
    rewrite Henc. cbn [decode_operand]. now rewrite Hfail, Halt.
Qed.

Lemma C7_decode_fallback_witness :
  handle_tj py_bytes_decode no_encoder default_config false
    (Some quiet_visitor) [] [OpBytes [Byte.x41]] (named_state "utf-16-be") [0] []
  = (mkFrame [65] [] (named_state "utf-16-be") [], Return [65]).
Proof.
  apply (proj1 (proj2 (proj1 (proj2 (C7_decode_fallback py_bytes_decode
                                       no_encoder default_config false
                                       (Some quiet_visitor) []
                                       [Byte.x41] [] (named_state "utf-16-be")
                                       [0] [] "utf-16-be" UnicodeDecodeError
                                       ltac:(accepted) eq_refl eq_refl))
                        [65] eq_refl))
           (fun _ _ _ => eq_refl)).
Defined.

(** ** C2: a right-to-left character between two left-to-right ones *)

(** The three ways [handle_tj] treats a unit, by the code point it is
    classified by. *)
Inductive Direction : Set := Neutral | RightToLeft | LeftToRight.

Definition classify (config : RtlConfig) (xx : Z) : Direction :=
  if keeps_order config xx then Neutral
  else if is_rtl config xx then RightToLeft
  else LeftToRight.



(** The six bytes of ["A"], [U+05D0], ["B"] in the 16-bit big-endian
    form. *)
Definition hebrew_between_latin : bytes :=
  [Byte.x00; Byte.x41; Byte.x05; Byte.xd0; Byte.x00; Byte.x42].




(** ** C9: the custom range setter *)

(** What is stored for an argument that gives a code point. *)
Definition stored_code (arg : option StrOrInt) (old : Z) : Z :=
  match arg with
  | None => old
  | Some (ArgInt n) => n
  | Some (ArgStr s) => hd old s
  end.

(** What is stored for the argument of the special characters. *)
Definition stored_specials (arg : option StrOrList) (old : list Z) : list Z :=
  match arg with
  | None => old
  | Some (SpecStr s) => s
  | Some (SpecList l) => l
  end.

(** A string given for a code point has one character. *)
Definition one_character (arg : option StrOrInt) : Prop :=
  match arg with
  | Some (ArgStr s) => length s = 1%nat
  | _ => True
  end.

Lemma map_outcome_ord s : map_outcome (fun x => ord [x]) s = Return s.
Proof.
  induction s as [ | c s IH]; [ reflexivity | ].
  cbn [map_outcome]. cbv beta. rewrite IH. reflexivity.
Qed.

(** C9. From every stored configuration, [set_custom_rtl] leaves the
    stored value of an omitted argument as it was, stores the code point of
    a one-character string, stores an integer as given, stores a string of
    special characters as the list of their code points and a list as given,
    and returns the three stored values. After [(97, 122, [88, 89])] has
    been set, a call with every argument omitted leaves the three values and
    returns them. *)
Theorem C9_set_custom_rtl _min _max specials config :
  one_character _min ->
  one_character _max ->
  let config' :=
    mkRtlConfig (stored_code _min (CUSTOM_RTL_MIN config))
      (stored_code _max (CUSTOM_RTL_MAX config))
      (stored_specials specials (CUSTOM_RTL_SPECIAL_CHARS config)) in
  set_custom_rtl _min _max specials config
  = (config',
     Return (CUSTOM_RTL_MIN config', CUSTOM_RTL_MAX config',
             CUSTOM_RTL_SPECIAL_CHARS config'))
  /\ set_custom_rtl None None None
       (fst (set_custom_rtl (Some (ArgInt 97)) (Some (ArgInt 122))
               (Some (SpecList [88; 89])) config))
     = (mkRtlConfig 97 122 [88; 89], Return (97, 122, [88; 89])).
Proof.
  intros Hmin Hmax. cbv zeta. split; [ | reflexivity ].
  destruct config as [cmin cmax cspecials].
  destruct _min as [[nmin | [ | c1 [ | ? ?]]] | ]; try discriminate Hmin;
    destruct _max as [[nmax | [ | c2 [ | ? ?]]] | ]; try discriminate Hmax;
    destruct specials as [[s | l] | ];
    unfold set_custom_rtl, bind, lift, modify, gets, ret; cbn;
    rewrite ?map_outcome_ord; reflexivity.
Qed.

Lemma C9_set_custom_rtl_witness :
  set_custom_rtl (Some (ArgStr [97])) None (Some (SpecStr [88; 89]))
    default_config
  = (mkRtlConfig 97 (-1) [88; 89], Return (97, -1, [88; 89])).
Proof.
  apply (proj1 (C9_set_custom_rtl (Some (ArgStr [97])) None
                  (Some (SpecStr [88; 89])) default_config eq_refl I)).
Defined.

(** * Further properties *)

(** ** The glyph origin *)

Lemma SFmul_comm x y : SF64mul x y = SF64mul y x.
Proof.
  destruct x as [ sx | sx | | sx mx ex ], y as [ sy | sy | | sy my ey ];
    cbn [SF64mul SFmul]; rewrite ?(xorb_comm sx sy); try reflexivity.
  now rewrite (Pos.mul_comm mx my), (Z.add_comm ex ey).
Qed.

Lemma float_mul_comm (x y : float) : (x * y = y * x)%float.
Proof. apply Prim2SF_inj. rewrite !mul_spec. apply SFmul_comm. Qed.

(** [pos] never raises. Its ordinate is the one of the composed matrix the
    heuristic works on; so is its abscissa while the offset is zero, and
    otherwise the abscissa is moved by the offset times the glyph height
    [f] of the heuristic. *)
Theorem pos_is_composed_origin st :
  pos st
  = Return
      (if truthy (text_offset st)
       then (m4 (composed st) + text_offset st * glyph_height st)%float
       else m4 (composed st),
       m5 (composed st)).
Proof.
  unfold pos, xy_mult. rewrite math_sqrt_abs_sum.
  unfold composed, glyph_height, scale_k, composed, mult.
  cbn [m0 m1 m2 m3 m4 m5].
  rewrite (float_mul_comm (m0 (cm_matrix st))), (float_mul_comm (m2 (cm_matrix st))),
    (float_mul_comm (m1 (cm_matrix st))), (float_mul_comm (m3 (cm_matrix st))).
  now destruct (truthy (text_offset st)).
Qed.

(** ** The line and space heuristic: invariants *)

(** The four frames a call under an accepted orientation can leave. *)
Lemma branch_frame_cases visitor_text brk small wide text output st :
  branch_frame visitor_text brk small wide text output st = enter text output st
  \/ ((brk = true
       /\ visitor_answer visitor_text [] (text ++ [newline]) st = None)
      /\ last_char (output ++ text) <> Some newline
      /\ branch_frame visitor_text brk small wide text output st
         = mkFrame [] (output ++ text ++ [newline]) st
             (if has_visitor visitor_text then [(text ++ [newline], st)]
              else []))
  \/ ((brk = false /\ small && wide = true)
      /\ last_char (output ++ text) <> Some space
      /\ branch_frame visitor_text brk small wide text output st
         = mkFrame (text ++ [space]) output st [])
  \/ ((brk = true
       /\ exists e,
            visitor_answer visitor_text [] (text ++ [newline]) st = Some e)
      /\ last_char (output ++ text) <> Some newline
      /\ branch_frame visitor_text brk small wide text output st
         = mkFrame text (output ++ text ++ [newline]) st
             [(text ++ [newline], st)]).
Proof.
  unfold branch_frame.
  destruct (last_char (output ++ text)) as [c | ]; [ | now left ].
  destruct brk.
  - destruct (Z.eqb_spec c newline) as [-> | Hc]; [ now left | ].
    destruct (visitor_answer visitor_text [] (text ++ [newline]) st)
      as [e | ] eqn:Ha.
    + right; right; right.
      destruct visitor_text; [ | discriminate Ha ].
      repeat split; eauto; congruence.
    + right; left. repeat split; congruence.
  - destruct (small && wide); [ | now left ].
    destruct (Z.eqb_spec c space) as [-> | Hc]; [ now left | ].
    right; right; left. repeat split; congruence.
Qed.

(** [orient] answers 0, 90, 180 or 270 and nothing else: a caller that
    accepts the four of them never sees [crlf_space_check] raise, and gets
    back the current pair of matrices as the new baseline. *)
Theorem crlf_space_check_total visitor_text text st cmtm_prev orientations
    output processing_TJ_op :
  0 ∈ orientations -> 90 ∈ orientations ->
  180 ∈ orientations -> 270 ∈ orientations ->
  exists fr text' output',
    crlf_space_check visitor_text text st cmtm_prev orientations output
      processing_TJ_op
    = (fr, Return (text', output', cm_matrix st, tm_matrix st)).
Proof.
  intros H0 H90 H180 H270.
  rewrite crlf_space_check_accepted; [ cbv zeta; eauto | ].
  destruct (orient_cases (composed st)) as [E | [E | [E | E]]];
    now rewrite E.
Qed.

Lemma crlf_space_check_total_witness :
  exists fr text' output',
    crlf_space_check (Some raising_visitor) [97] turned_state (prev_at 0 0)
      [0; 90; 180; 270] [] false
    = (fr, Return (text', output', cm_matrix turned_state,
                   tm_matrix turned_state)).
Proof.
  apply (crlf_space_check_total (Some raising_visitor) [97] turned_state
           (prev_at 0 0) [0; 90; 180; 270] [] false);
    refine (bool_decide_unpack _ _); exact I.
Defined.

(** [crlf_space_check] never touches the text state, and what it returns
    is the two buffers of its frame with the matrices of the text state,
    whatever previous pair it was given. *)
Theorem crlf_space_check_keeps_text_state visitor_text text st cmtm_prev
    orientations output processing_TJ_op :
  f_st (fst (crlf_space_check visitor_text text st cmtm_prev orientations
               output processing_TJ_op)) = st
  /\ forall text' output' cm tm,
       snd (crlf_space_check visitor_text text st cmtm_prev orientations
              output processing_TJ_op) = Return (text', output', cm, tm) ->
       cm = cm_matrix st /\ tm = tm_matrix st
       /\ text' = f_text (fst (crlf_space_check visitor_text text st cmtm_prev
                                 orientations output processing_TJ_op))
       /\ output' = f_output (fst (crlf_space_check visitor_text text st
                                     cmtm_prev orientations output
                                     processing_TJ_op)).
Proof.
  destruct (decide (orient (composed st) ∈ orientations)) as [Hin | Hout].
  - rewrite crlf_space_check_accepted by exact Hin. cbv zeta. cbn [fst snd].
    split; [ apply branch_frame_st | ].
    intros text' output' cm tm [= <- <- <- <-]. auto.
  - rewrite crlf_space_check_refused by exact Hout. cbn [fst snd].
    split; [ reflexivity | discriminate ].
Qed.

(** The heuristic loses no character: after a call that returns, the
    buffers are as they were; or the output has received the pending text and
    a newline (the buffers did not end in one), and the pending text is empty,
    unless the visitor has raised: then the pending text is as it was, and
    stands in both buffers; or the pending text has received one space (the
    buffers did not end in one) and the output is as it was. *)
Theorem crlf_space_check_keeps_characters visitor_text text st cmtm_prev
    orientations output processing_TJ_op fr text' output' cm tm :
  crlf_space_check visitor_text text st cmtm_prev orientations output
    processing_TJ_op = (fr, Return (text', output', cm, tm)) ->
  (text' = text /\ output' = output)
  \/ (output' = output ++ text ++ [newline] /\ text' = []
      /\ last_char (output ++ text) <> Some newline
      /\ visitor_answer visitor_text [] (text ++ [newline]) st = None)
  \/ (text' = text ++ [space] /\ output' = output
      /\ last_char (output ++ text) <> Some space)
  \/ (output' = output ++ text ++ [newline] /\ text' = text
      /\ last_char (output ++ text) <> Some newline
      /\ exists e,
           visitor_answer visitor_text [] (text ++ [newline]) st = Some e).
Proof.
  destruct (decide (orient (composed st) ∈ orientations)) as [Hin | Hout].
  - rewrite crlf_space_check_accepted by exact Hin. cbv zeta.
    destruct (branch_frame_cases visitor_text (line_break_test st cmtm_prev)
                (small_advance st cmtm_prev) (wide_gap st cmtm_prev)
                text output st)
      as [-> | [((_ & Ha) & Hnl & ->) | [(_ & Hsp & ->) | ((_ & Ha) & Hnl & ->)]]];
      cbn [f_text f_output enter]; intros [= <- <- <- <- <-]; auto 10.
  - rewrite crlf_space_check_refused by exact Hout. discriminate.
Qed.

Lemma crlf_space_check_keeps_characters_witness :
  ([97; 98] : str) = [97; 98] /\ [120; 97; 98; 10] = [120]
  \/ ([120; 97; 98; 10] = [120] ++ [97; 98] ++ [newline]
      /\ ([97; 98] : str) = []
      /\ last_char ([120] ++ [97; 98]) <> Some newline
      /\ visitor_answer (Some raising_visitor) [] ([97; 98] ++ [newline])
           (state_at 0 0) = None)
  \/ (([97; 98] : str) = [97; 98] ++ [space] /\ [120; 97; 98; 10] = [120]
      /\ last_char ([120] ++ [97; 98]) <> Some space)
  \/ ([120; 97; 98; 10] = [120] ++ [97; 98] ++ [newline]
      /\ ([97; 98] : str) = [97; 98]
      /\ last_char ([120] ++ [97; 98]) <> Some newline
      /\ exists e,
           visitor_answer (Some raising_visitor) [] ([97; 98] ++ [newline])
             (state_at 0 0) = Some e).
Proof.
  apply (crlf_space_check_keeps_characters (Some raising_visitor) [97; 98]
           (state_at 0 0) (prev_at 0 20) [0] [120] false
           (mkFrame [97; 98] [120; 97; 98; 10] (state_at 0 0)
              [([97; 98; 10], state_at 0 0)])
           [97; 98] [120; 97; 98; 10] identity_matrix (mkMat 1 0 0 1 0 0)).
  by_computation.
Defined.

(** Calling the heuristic again on the buffers it has returned, with the
    same geometry, changes nothing, whatever the visitor of the second call:
    a line is broken once and a space is inserted once. This is so when the
    visitor of the first call, if there is one, returns from the call that
    hands it the broken line. *)
Theorem crlf_space_check_idempotent visitor_text visitor_text' text st cmtm_prev
    orientations output processing_TJ_op fr text' output' cm tm :
  visitor_answer visitor_text [] (text ++ [newline]) st = None ->
  crlf_space_check visitor_text text st cmtm_prev orientations output
    processing_TJ_op = (fr, Return (text', output', cm, tm)) ->
  crlf_space_check visitor_text' text' st cmtm_prev orientations output'
    processing_TJ_op
  = (enter text' output' st, Return (text', output', cm, tm)).
Proof.
  intros Hquiet.
  destruct (decide (orient (composed st) ∈ orientations)) as [Hin | Hout].
  - rewrite !crlf_space_check_accepted by exact Hin. cbv zeta.
    destruct (branch_frame_cases visitor_text (line_break_test st cmtm_prev)
                (small_advance st cmtm_prev) (wide_gap st cmtm_prev)
                text output st)
      as [E | [((Hbrk & _) & _ & E) | [((Hbrk & Hsp) & _ & E)
                                      | ((_ & e & Ha) & _ & _)]]];
      [ | | | congruence ];
      rewrite E; cbn [f_text f_output enter]; intros [= <- <- <- <- <-].
    + unfold branch_frame in *.
      destruct (last_char (output ++ text)) as [c | ]; [ | reflexivity ].
      destruct (line_break_test st cmtm_prev).
      * destruct (c =? newline); [ reflexivity | ].
        exfalso. apply (f_equal f_output) in E. cbn [f_output enter] in E.
        apply (f_equal (@length _)) in E.
        rewrite !length_app in E. cbn [length] in E. lia.
      * destruct (small_advance st cmtm_prev && wide_gap st cmtm_prev);
          [ | reflexivity ].
        destruct (c =? space); [ reflexivity | ].
        exfalso. apply (f_equal f_text) in E. cbn [f_text enter] in E.
        apply (f_equal (@length _)) in E.
        rewrite length_app in E. cbn [length] in E. lia.
    + unfold branch_frame.
      now rewrite app_nil_r, app_assoc, last_char_app, Hbrk.
    + unfold branch_frame.
      now rewrite app_assoc, last_char_app, Hbrk, Hsp.
  - rewrite crlf_space_check_refused by exact Hout. discriminate.
Qed.

Lemma crlf_space_check_idempotent_witness :
  crlf_space_check (Some raising_visitor) [] (state_at 0 0) (prev_at 0 20) [0]
    [120; 97; 98; 10] false
  = (enter [] [120; 97; 98; 10] (state_at 0 0),
     Return ([], [120; 97; 98; 10], identity_matrix, mkMat 1 0 0 1 0 0)).
Proof.
  apply (crlf_space_check_idempotent (Some quiet_visitor)
           (Some raising_visitor) [97; 98] (state_at 0 0)
           (prev_at 0 20) [0] [120] false
           (mkFrame [] [120; 97; 98; 10] (state_at 0 0)
              [([97; 98; 10], state_at 0 0)])
           [] [120; 97; 98; 10] identity_matrix (mkMat 1 0 0 1 0 0)).
  - reflexivity.
  - by_computation.
Defined.

(** With both buffers empty there is no last character to look at: under an
    accepted orientation the call returns the empty buffers, whatever the
    movement, and calls no visitor. *)
Theorem crlf_space_check_empty_buffers visitor_text st cmtm_prev orientations
    processing_TJ_op :
  orient (composed st) ∈ orientations ->
  crlf_space_check visitor_text [] st cmtm_prev orientations []
    processing_TJ_op
  = (enter [] [] st, Return ([], [], cm_matrix st, tm_matrix st)).
Proof.
  intros Hin. now rewrite crlf_space_check_accepted by exact Hin.
Qed.

Lemma crlf_space_check_empty_buffers_witness :
  crlf_space_check (Some quiet_visitor) [] (state_at 0 0) (prev_at 0 20) [0] []
    false
  = (enter [] [] (state_at 0 0),
     Return ([], [], identity_matrix, mkMat 1 0 0 1 0 0)).
Proof.
  apply (crlf_space_check_empty_buffers (Some quiet_visitor) (state_at 0 0)
           (prev_at 0 20) [0] false).
  accepted.
Defined.

(** The visitor of the heuristic is told exactly what is appended to the
    output: without a visitor there is no call; with one, the output is the
    old one followed by the texts of the calls, there is at most one call,
    and its text state is the one of the call. This holds whether the
    visitor returns or raises. *)
Theorem crlf_space_check_visitor_sees_output visitor_text text st cmtm_prev
    orientations output processing_TJ_op :
  let fr := fst (crlf_space_check visitor_text text st cmtm_prev orientations
                   output processing_TJ_op) in
  (has_visitor visitor_text = false -> f_visits fr = [])
  /\ (has_visitor visitor_text = true ->
      f_output fr = output ++ concat (map fst (f_visits fr))
      /\ (length (f_visits fr) <= 1)%nat
      /\ Forall (fun v => snd v = st) (f_visits fr)).
Proof.
  cbv zeta.
  destruct (decide (orient (composed st) ∈ orientations)) as [Hin | Hout].
  - rewrite crlf_space_check_accepted by exact Hin. cbv zeta. cbn [fst].
    destruct (branch_frame_cases visitor_text (line_break_test st cmtm_prev)
                (small_advance st cmtm_prev) (wide_gap st cmtm_prev)
                text output st)
      as [-> | [(_ & _ & ->) | [(_ & _ & ->) | ((_ & e & Ha) & _ & ->)]]];
      cbn [f_visits f_output enter]; split; intros Hv; rewrite ?Hv;
      cbn [map concat fst snd length]; rewrite ?app_nil_r;
      repeat split; auto.
    destruct visitor_text; discriminate.
  - rewrite crlf_space_check_refused by exact Hout. cbn [fst enter f_visits f_output].
    split; [ reflexivity | ]. intros _. cbn. rewrite app_nil_r. auto.
Qed.

(** ** Decoding and bidi accumulation: invariants *)

(** Everything of a text state but the direction flag and the offset. *)
Definition same_geometry (st st' : TextState) : Prop :=
  cm_matrix st' = cm_matrix st /\ tm_matrix st' = tm_matrix st
  /\ cmap st' = cmap st /\ font_size st' = font_size st
  /\ char_scale st' = char_scale st /\ space_scale st' = space_scale st
  /\ _space_width st' = _space_width st /\ text_leading st' = text_leading st.

(** The pending text holds no character of the direction opposite to the
    flag [dir]. *)
Definition one_direction (config : RtlConfig) (dir : bool) (text : str) : Prop :=
  Forall (fun c => classify config c
                   <> (if dir then LeftToRight else RightToLeft)) text.

Section unit_frame_properties.
Variable config : RtlConfig.
Variable processing_TJ_op : bool.
(** Whether there is a visitor. *)
Variable visitor_text : bool.

Local Abbreviation unit_frame' :=
  (unit_frame config processing_TJ_op visitor_text).
Local Abbreviation units_frame' :=
  (units_frame config processing_TJ_op visitor_text).

Lemma units_frame_cons x units fr :
  units_frame' (x :: units) fr = units_frame' units (unit_frame' x fr).
Proof. reflexivity. Qed.

Lemma after_flush_geometry t st :
  same_geometry st (after_flush processing_TJ_op t st)
  /\ rtl_dir (after_flush processing_TJ_op t st) = rtl_dir st
  /\ (processing_TJ_op = false ->
      text_offset (after_flush processing_TJ_op t st) = text_offset st).
Proof.
  unfold after_flush, same_geometry.
  destruct processing_TJ_op; cbn; repeat split; auto; discriminate.
Qed.

Lemma unit_frame_geometry x fr :
  same_geometry (f_st fr) (f_st (unit_frame' x fr))
  /\ (processing_TJ_op = false ->
      text_offset (f_st (unit_frame' x fr)) = text_offset (f_st fr)).
Proof.
  unfold unit_frame, flushed, with_text, with_st.
  repeat match goal with
         | |- context [if ?b then _ else _] =>
             lazymatch b with
             | processing_TJ_op => fail
             | visitor_text => fail
             | _ => destruct b
             end
         end;
    cbn [f_st f_text];
    try (unfold same_geometry; repeat split; auto; fail);
    match goal with
    | |- context [after_flush _ ?t ?s] =>
        destruct (after_flush_geometry t s) as (Hg & _ & Ho)
    end;
    (split; [ exact Hg | exact Ho ]).
Qed.

Lemma units_frame_geometry units fr :
  same_geometry (f_st fr) (f_st (units_frame' units fr))
  /\ (processing_TJ_op = false ->
      text_offset (f_st (units_frame' units fr)) = text_offset (f_st fr)).
Proof.
  revert fr. induction units as [ | x units IH]; intros fr.
  - unfold same_geometry. cbn. repeat split; auto.
  - rewrite units_frame_cons.
    destruct (IH (unit_frame' x fr)) as [Hg Ho].
    destruct (unit_frame_geometry x fr) as [Hg1 Ho1].
    split.
    + unfold same_geometry in *. intuition congruence.
    + intros Hp. rewrite Ho, Ho1; auto.
Qed.

(** One unit keeps every character: the output followed by the pending
    text is, up to the order, what it was with the unit added. *)
Lemma unit_frame_permutation x fr :
  f_output (unit_frame' x fr) ++ f_text (unit_frame' x fr)
  ≡ₚ (f_output fr ++ f_text fr) ++ x.
Proof.
  unfold unit_frame, flushed, with_text, with_st.
  repeat match goal with
         | |- context [if ?b then _ else _] =>
             lazymatch b with
             | processing_TJ_op => fail
             | visitor_text => fail
             | _ => destruct b
             end
         end;
    cbn [f_output f_text]; rewrite ?app_nil_r, <- ?app_assoc;
    try reflexivity;
    apply Permutation_app_head, Permutation_app_comm.
Qed.

Lemma units_frame_permutation units fr :
  f_output (units_frame' units fr) ++ f_text (units_frame' units fr)
  ≡ₚ (f_output fr ++ f_text fr) ++ concat units.
Proof.
  revert fr. induction units as [ | x units IH]; intros fr.
  - cbn. now rewrite app_nil_r.
  - rewrite units_frame_cons, IH, unit_frame_permutation.
    cbn [concat]. now rewrite <- !app_assoc.
Qed.

(** What the visitor has been given is what the output has received. *)
Lemma units_frame_visits units fr :
  (visitor_text = false -> f_visits (units_frame' units fr) = f_visits fr)
  /\ (visitor_text = true ->
      forall out0, f_output fr = out0 ++ concat (map fst (f_visits fr)) ->
      f_output (units_frame' units fr)
      = out0 ++ concat (map fst (f_visits (units_frame' units fr)))).
Proof.
  revert fr. induction units as [ | x units IH]; intros fr; [ now split | ].
  rewrite units_frame_cons.
  destruct (IH (unit_frame' x fr)) as [IH1 IH2]. split.
  - intros Hv. rewrite IH1 by exact Hv.
    unfold unit_frame, flushed, with_text, with_st. rewrite Hv.
    repeat match goal with
           | |- context [if ?b then _ else _] => destruct b
           end; reflexivity.
  - intros Hv out0 Hout. apply IH2; [ exact Hv | ].
    unfold unit_frame, flushed, with_text, with_st. rewrite Hv.
    repeat match goal with
           | |- context [if ?b then _ else _] => destruct b
           end;
      cbn [f_output f_visits]; try exact Hout;
      rewrite map_app, concat_app, Hout; cbn [map concat fst];
      now rewrite app_nil_r, app_assoc.
Qed.

(** A run that stays left-to-right: the units are appended in order. *)
Lemma units_frame_left_to_right units fr :
  rtl_dir (f_st fr) = false ->
  Forall (fun x => classify config (unit_code x) <> RightToLeft) units ->
  units_frame' units fr = with_text (f_text fr ++ concat units) fr.
Proof.
  intros Hdir Hu. revert fr Hdir.
  induction Hu as [ | x units Hx _ IH]; intros fr Hdir.
  - cbn. rewrite app_nil_r. now destruct fr.
  - rewrite units_frame_cons.
    assert (unit_frame' x fr = with_text (f_text fr ++ x) fr) as ->.
    { unfold unit_frame, classify in *. rewrite Hdir.
      destruct (keeps_order config (unit_code x)); [ reflexivity | ].
      destruct (is_rtl config (unit_code x)); [ now elim Hx | reflexivity ]. }
    rewrite IH by exact Hdir. unfold with_text. cbn [f_text f_output f_st f_visits concat].
    now rewrite <- app_assoc.
Qed.

(** A run that stays right-to-left: each unit goes to the front, so the
    units end up in the reverse order, each of them as it is. *)
Lemma units_frame_right_to_left units fr :
  rtl_dir (f_st fr) = true ->
  Forall (fun x => classify config (unit_code x) <> LeftToRight) units ->
  units_frame' units fr = with_text (concat (rev units) ++ f_text fr) fr.
Proof.
  intros Hdir Hu. revert fr Hdir.
  induction Hu as [ | x units Hx _ IH]; intros fr Hdir.
  - cbn. now destruct fr.
  - rewrite units_frame_cons.
    assert (unit_frame' x fr = with_text (x ++ f_text fr) fr) as ->.
    { unfold unit_frame, classify in *. rewrite Hdir.
      destruct (keeps_order config (unit_code x)); [ reflexivity | ].
      destruct (is_rtl config (unit_code x)); [ reflexivity | now elim Hx ]. }
    rewrite IH by exact Hdir. unfold with_text. cbn [f_text f_output f_st f_visits rev].
    now rewrite concat_app, <- app_assoc; cbn [concat]; rewrite app_nil_r.
Qed.

(** A unit that is not one character is classified by the code 1, which
    every configuration keeps in the inserting order. *)
Lemma keeps_order_not_single x :
  length x <> 1%nat -> keeps_order config (unit_code x) = true.
Proof.
  intros Hx. destruct x as [ | c [ | c' x]]; [ reflexivity | now elim Hx | reflexivity ].
Qed.

(** The pending text stays of one direction, unit by unit. *)
Lemma unit_frame_one_direction c fr :
  one_direction config (rtl_dir (f_st fr)) (f_text fr) ->
  one_direction config (rtl_dir (f_st (unit_frame' [c] fr)))
    (f_text (unit_frame' [c] fr)).
Proof.
  unfold one_direction, unit_frame. cbn [unit_code]. intros Hfr.
  destruct (keeps_order config c) eqn:Hk.
  - assert (classify config c = Neutral) as Hc by (unfold classify; now rewrite Hk).
    cbn [with_text f_st f_text].
    destruct (rtl_dir (f_st fr)); [ constructor | apply Forall_app; split ];
      auto; try (constructor; [ | constructor ]); rewrite Hc; discriminate.
  - destruct (is_rtl config c) eqn:Hr.
    + assert (classify config c = RightToLeft) as Hc
        by (unfold classify; now rewrite Hk, Hr).
      destruct (rtl_dir (f_st fr)) eqn:Hdir; cbn [with_text flushed with_st f_st f_text].
      * rewrite Hdir. constructor; [ rewrite Hc; discriminate | exact Hfr ].
      * destruct (after_flush_geometry (f_text fr)
                    (set_rtl_dir true (f_st fr))) as (_ & -> & _).
        cbn [set_rtl_dir rtl_dir app].
        constructor; [ rewrite Hc; discriminate | constructor ].
    + assert (classify config c = LeftToRight) as Hc
        by (unfold classify; now rewrite Hk, Hr).
      destruct (rtl_dir (f_st fr)) eqn:Hdir; cbn [with_text flushed with_st f_st f_text].
      * destruct (after_flush_geometry (f_text fr)
                    (set_rtl_dir false (f_st fr))) as (_ & -> & _).
        cbn [set_rtl_dir rtl_dir app].
        constructor; [ rewrite Hc; discriminate | constructor ].
      * rewrite Hdir. apply Forall_app. split; [ exact Hfr | ].
        constructor; [ rewrite Hc; discriminate | constructor ].
Qed.

Lemma units_frame_one_direction t fr :
  one_direction config (rtl_dir (f_st fr)) (f_text fr) ->
  one_direction config
    (rtl_dir (f_st (units_frame' (map (fun c => [c]) t) fr)))
    (f_text (units_frame' (map (fun c => [c]) t) fr)).
Proof.
  revert fr. induction t as [ | c t IH]; intros fr Hfr; [ exact Hfr | ].
  cbn [map]. rewrite units_frame_cons. apply IH.
  now apply unit_frame_one_direction.
Qed.
End unit_frame_properties.

Section handle_tj_invariants.
Variable bytes_decode : string -> bytes -> outcome str.
Variable encode_pdfdocencoding : str -> outcome bytes.
Variable config : RtlConfig.
Variable processing_TJ_op : bool.
Variable visitor_text : option Visitor.

Local Abbreviation tj_unit' := (tj_unit config processing_TJ_op visitor_text).
Local Abbreviation handle_tj' :=
  (handle_tj bytes_decode encode_pdfdocencoding config processing_TJ_op
     visitor_text).
Local Abbreviation accumulate' :=
  (accumulate config processing_TJ_op visitor_text).
Local Abbreviation units_frame' :=
  (units_frame config processing_TJ_op (has_visitor visitor_text)).

Lemma accumulate_fst units fr :
  fst (accumulate' units fr) = fst (for_each units tj_unit' fr).
Proof.
  rewrite accumulate_run. now destruct (for_each _ _ _) as [fr' [[] | e]].
Qed.

Lemma for_each_app units1 units2 fr :
  for_each (units1 ++ units2) tj_unit' fr
  = match for_each units1 tj_unit' fr with
    | (fr1, Return _) => for_each units2 tj_unit' fr1
    | (fr1, Raise e) => (fr1, Raise e)
    end.
Proof.
  revert fr. induction units1 as [ | x units1 IH]; intros fr; [ reflexivity | ].
  cbn [app]. rewrite !for_each_cons.
  destruct (tj_unit' x fr) as [fr1 [[] | e]]; [ apply IH | reflexivity ].
Qed.

(** The ways a call can go. *)
Lemma handle_tj_cases text operands st orientations output :
  handle_tj' text operands st orientations output
  = (enter text output st, Return text)
  \/ (exists s rest,
        operands = OpStr s :: rest
        /\ handle_tj' text operands st orientations output
           = (mkFrame (text ++ s) output st [], Return (text ++ s)))
  \/ (exists tt rest e,
        operands = OpBytes tt :: rest
        /\ decode_operand bytes_decode (encoding (cmap st)) tt = Raise e
        /\ handle_tj' text operands st orientations output
           = (enter text output st, Raise e))
  \/ (exists tt rest t,
        operands = OpBytes tt :: rest
        /\ orient (composed st) ∈ orientations
        /\ decode_operand bytes_decode (encoding (cmap st)) tt = Return t
        /\ handle_tj' text operands st orientations output
           = accumulate' (substitute (map_dict (cmap st)) t)
               (enter text output st)).
Proof.
  destruct (decide (orient (composed st) ∈ orientations)) as [Hin | Hout];
    [ | left; now apply handle_tj_refused ].
  destruct operands as [ | [s | tt] rest].
  - left. apply handle_tj_no_operand.
  - right; left. exists s, rest. split; [ reflexivity | now apply handle_tj_str ].
  - rewrite handle_tj_bytes by exact Hin.
    destruct (decode_operand bytes_decode (encoding (cmap st)) tt) as [t | e] eqn:Hd.
    + right; right; right. exists tt, rest, t. auto.
    + right; right; left. exists tt, rest, e. auto.
Qed.

(** What holds on entry, is kept by every unit and holds in the frame a
    raising visitor leaves, holds of the frame of every call. *)
Lemma handle_tj_invariant (P : Frame -> Prop) text operands st orientations
    output :
  P (enter text output st) ->
  (forall s, P (mkFrame (text ++ s) output st [])) ->
  (forall x fr,
      P fr -> P (unit_frame config processing_TJ_op (has_visitor visitor_text)
                   x fr)) ->
  (forall dir fr e,
      visitor_answer visitor_text (f_visits fr) (f_text fr)
        (set_rtl_dir dir (f_st fr)) = Some e ->
      P fr -> P (interrupted (with_st (set_rtl_dir dir (f_st fr)) fr))) ->
  P (fst (handle_tj' text operands st orientations output)).
Proof.
  intros Henter Hstr Hunit Hint.
  destruct (handle_tj_cases text operands st orientations output)
    as [-> | [(s & rest & _ & ->) | [(tt & rest & e' & _ & _ & ->)
                                    | (tt & rest & t & _ & _ & _ & ->)]]];
    cbn [fst]; auto.
  rewrite accumulate_fst. now apply for_each_invariant.
Qed.

(** [handle_tj] changes nothing of the text state but the direction flag
    and the offset, and the offset only under the array form of the operator:
    the orientation of the run is the same after the call. *)
Theorem handle_tj_keeps_geometry text operands st orientations output :
  same_geometry st (f_st (fst (handle_tj' text operands st orientations output)))
  /\ orient (composed (f_st (fst (handle_tj' text operands st orientations
                                    output))))
     = orient (composed st)
  /\ (processing_TJ_op = false ->
      text_offset (f_st (fst (handle_tj' text operands st orientations output)))
      = text_offset st).
Proof.
  assert (forall st', same_geometry st st' ->
                      orient (composed st') = orient (composed st)) as Ho.
  { intros st' (Hcm & Htm & _). unfold composed. now rewrite Hcm, Htm. }
  assert (same_geometry st st) as Hrefl by (unfold same_geometry; auto 10).
  enough (same_geometry st
            (f_st (fst (handle_tj' text operands st orientations output)))
          /\ (processing_TJ_op = false ->
              text_offset (f_st (fst (handle_tj' text operands st orientations
                                        output)))
              = text_offset st)) as [Hg Hoff] by auto.
  apply (handle_tj_invariant
           (fun fr => same_geometry st (f_st fr)
                      /\ (processing_TJ_op = false ->
                          text_offset (f_st fr) = text_offset st))).
  - auto.
  - auto.
  - intros x fr [Hg Hoff].
    destruct (unit_frame_geometry config processing_TJ_op
                (has_visitor visitor_text) x fr) as [Hg1 Hoff1].
    split.
    + unfold same_geometry in *. intuition congruence.
    + intros Hp. rewrite Hoff1, Hoff; auto.
  - intros dir fr e _ [Hg Hoff]. cbn [interrupted with_st f_st]. split.
    + unfold same_geometry in *. cbn. exact Hg.
    + exact Hoff.
Qed.

(** When [handle_tj] raises, either the decoding of a bytes operand has
    failed, and then nothing has changed: the pending text, the output and the
    text state are as on entry and the visitor has not been called; or the
    bytes have been decoded and the visitor has raised, at the last call it
    received. Without a visitor only the first can be. *)
Theorem handle_tj_raises text operands st orientations output e :
  snd (handle_tj' text operands st orientations output) = Raise e ->
  (exists tt rest,
      operands = OpBytes tt :: rest
      /\ decode_operand bytes_decode (encoding (cmap st)) tt = Raise e
      /\ fst (handle_tj' text operands st orientations output)
         = enter text output st)
  \/ (exists tt rest t,
        operands = OpBytes tt :: rest
        /\ decode_operand bytes_decode (encoding (cmap st)) tt = Return t
        /\ has_visitor visitor_text = true
        /\ visitor_raised visitor_text
             (fst (handle_tj' text operands st orientations output)) e).
Proof.
  destruct (handle_tj_cases text operands st orientations output)
    as [-> | [(s & rest & _ & ->) | [(tt & rest & e' & Hop & Hd & ->)
                                    | (tt & rest & t & Hop & _ & Hd & ->)]]];
    cbn [fst snd]; try discriminate.
  - intros [= ->]. left. eauto.
  - destruct (accumulate' _ _) as [fr [text' | e']] eqn:Hacc; cbn [fst snd];
      [ discriminate | ].
    intros [= ->]. right. exists tt, rest, t.
    apply accumulate_raises in Hacc.
    repeat split; auto.
    destruct Hacc as (visits & t' & st' & _ & Ha).
    destruct visitor_text; [ reflexivity | discriminate Ha ].
Qed.

(** What the visitor has received is what the output has received. *)
Lemma handle_tj_output_of_visits text operands st orientations output :
  (has_visitor visitor_text = false ->
   f_visits (fst (handle_tj bytes_decode encode_pdfdocencoding config
                    processing_TJ_op visitor_text text operands st
                    orientations output)) = [])
  /\ (has_visitor visitor_text = true ->
      f_output (fst (handle_tj bytes_decode encode_pdfdocencoding config
                       processing_TJ_op visitor_text text operands st
                       orientations output))
      = output
        ++ concat (map fst (f_visits
                              (fst (handle_tj bytes_decode encode_pdfdocencoding
                                      config processing_TJ_op visitor_text text
                                      operands st orientations output))))).
Proof.
  apply (handle_tj_invariant
           (fun fr => (has_visitor visitor_text = false -> f_visits fr = [])
                      /\ (has_visitor visitor_text = true ->
                          f_output fr
                          = output ++ concat (map fst (f_visits fr))))).
  - cbn. rewrite app_nil_r. auto.
  - intros s. cbn. rewrite app_nil_r. auto.
  - intros x fr [H1 H2].
    destruct (units_frame_visits config processing_TJ_op
                (has_visitor visitor_text) [x] fr) as [Hn Hy].
    cbn [units_frame fold_left] in Hn, Hy. split.
    + intros Hv. rewrite Hn by exact Hv. auto.
    + intros Hv. apply Hy; auto.
  - intros dir fr e Ha [H1 H2].
    destruct visitor_text as [visitor | ]; [ | discriminate Ha ].
    split; [ discriminate | ]. intros _.
    cbn [interrupted with_st f_output f_visits f_text].
    rewrite H2 by reflexivity.
    rewrite map_app, concat_app. cbn [map concat fst].
    now rewrite app_nil_r, app_assoc.
Qed.

(** The visitor of [handle_tj] is told exactly what is appended to the
    output: without a visitor there is no call; with one, the output is the
    old one followed by the texts of the calls, in order. This holds whether
    the call returns or raises. *)
Theorem handle_tj_visitor_sees_output text operands st orientations output :
  (has_visitor visitor_text = false ->
   f_visits (fst (handle_tj bytes_decode encode_pdfdocencoding config
                    processing_TJ_op visitor_text text operands st
                    orientations output)) = [])
  /\ (has_visitor visitor_text = true ->
      f_output (fst (handle_tj bytes_decode encode_pdfdocencoding config
                       processing_TJ_op visitor_text text operands st
                       orientations output))
      = output
        ++ concat (map fst (f_visits
                              (fst (handle_tj bytes_decode encode_pdfdocencoding
                                      config processing_TJ_op visitor_text text
                                      operands st orientations output))))).
Proof. apply handle_tj_output_of_visits. Qed.

(** With a visitor no decoded character is lost and none is added: when a
    call on a bytes operand returns, the texts the visitor has received
    followed by the pending text returned hold, up to the order, the pending
    text of the entry and the units of the operand. *)
Theorem handle_tj_keeps_characters text tt rest t st orientations output fr
    text' :
  orient (composed st) ∈ orientations ->
  decode_operand bytes_decode (encoding (cmap st)) tt = Return t ->
  has_visitor visitor_text = true ->
  handle_tj' text (OpBytes tt :: rest) st orientations output
  = (fr, Return text') ->
  concat (map fst (f_visits fr)) ++ text'
  ≡ₚ text ++ concat (substitute (map_dict (cmap st)) t).
Proof.
  intros Hin Hd Hv Hcall.
  pose proof (handle_tj_output_of_visits text (OpBytes tt :: rest) st
                orientations output) as [_ Hout].
  specialize (Hout Hv). rewrite Hcall in Hout. cbn [fst] in Hout.
  rewrite handle_tj_bytes in Hcall by exact Hin. rewrite Hd in Hcall.
  apply accumulate_returns in Hcall as [-> ->].
  pose proof (units_frame_permutation config processing_TJ_op
                (has_visitor visitor_text)
                (substitute (map_dict (cmap st)) t) (enter text output st))
    as Hperm.
  rewrite Hout in Hperm. cbn [enter f_output f_text] in Hperm.
  rewrite <- !app_assoc in Hperm.
  now apply Permutation_app_inv_l in Hperm.
Qed.

Lemma for_each_left_to_right units fr :
  rtl_dir (f_st fr) = false ->
  Forall (fun x => classify config (unit_code x) <> RightToLeft) units ->
  for_each units tj_unit' fr
  = (with_text (f_text fr ++ concat units) fr, Return tt).
Proof.
  intros Hdir Hu. revert fr Hdir.
  induction Hu as [ | x units Hx _ IH]; intros fr Hdir.
  - cbn. rewrite app_nil_r. now destruct fr.
  - rewrite for_each_cons, tj_unit_run.
    assert (turns config x fr = None
            /\ unit_frame config processing_TJ_op (has_visitor visitor_text)
                 x fr = with_text (f_text fr ++ x) fr) as [-> ->].
    { unfold turns, unit_frame, classify in *. rewrite Hdir.
      destruct (keeps_order config (unit_code x)); [ now split | ].
      destruct (is_rtl config (unit_code x)); [ now elim Hx | now split ]. }
    rewrite IH by exact Hdir.
    unfold with_text. cbn [f_text f_output f_st f_visits concat].
    now rewrite <- app_assoc.
Qed.

Lemma for_each_right_to_left units fr :
  rtl_dir (f_st fr) = true ->
  Forall (fun x => classify config (unit_code x) <> LeftToRight) units ->
  for_each units tj_unit' fr
  = (with_text (concat (rev units) ++ f_text fr) fr, Return tt).
Proof.
  intros Hdir Hu. revert fr Hdir.
  induction Hu as [ | x units Hx _ IH]; intros fr Hdir.
  - cbn. now destruct fr.
  - rewrite for_each_cons, tj_unit_run.
    assert (turns config x fr = None
            /\ unit_frame config processing_TJ_op (has_visitor visitor_text)
                 x fr = with_text (x ++ f_text fr) fr) as [-> ->].
    { unfold turns, unit_frame, classify in *. rewrite Hdir.
      destruct (keeps_order config (unit_code x)); [ now split | ].
      destruct (is_rtl config (unit_code x)); [ now split | now elim Hx ]. }
    rewrite IH by exact Hdir.
    unfold with_text. cbn [f_text f_output f_st f_visits rev].
    now rewrite concat_app, <- app_assoc; cbn [concat]; rewrite app_nil_r.
Qed.

(** A bytes operand without a right-to-left unit, met in the left-to-right
    direction: its units are appended to the pending text in their order,
    nothing is flushed, and the text state stays as it was. *)
Theorem handle_tj_left_to_right_run text tt rest t st orientations output :
  orient (composed st) ∈ orientations ->
  rtl_dir st = false ->
  decode_operand bytes_decode (encoding (cmap st)) tt = Return t ->
  Forall (fun x => classify config (unit_code x) <> RightToLeft)
    (substitute (map_dict (cmap st)) t) ->
  handle_tj' text (OpBytes tt :: rest) st orientations output
  = (mkFrame (text ++ concat (substitute (map_dict (cmap st)) t)) output st [],
     Return (text ++ concat (substitute (map_dict (cmap st)) t))).
Proof.
  intros Hin Hdir Hd Hu. rewrite handle_tj_bytes by exact Hin. rewrite Hd.
  now rewrite accumulate_run, for_each_left_to_right.
Qed.

(** A bytes operand without a left-to-right unit, met in the right-to-left
    direction: its units go one by one to the front of the pending text, so
    they stand there in the reverse order; nothing is flushed, and the text
    state stays as it was. *)
Theorem handle_tj_right_to_left_run text tt rest t st orientations output :
  orient (composed st) ∈ orientations ->
  rtl_dir st = true ->
  decode_operand bytes_decode (encoding (cmap st)) tt = Return t ->
  Forall (fun x => classify config (unit_code x) <> LeftToRight)
    (substitute (map_dict (cmap st)) t) ->
  handle_tj' text (OpBytes tt :: rest) st orientations output
  = (mkFrame (concat (rev (substitute (map_dict (cmap st)) t)) ++ text) output
       st [],
     Return (concat (rev (substitute (map_dict (cmap st)) t)) ++ text)).
Proof.
  intros Hin Hdir Hd Hu. rewrite handle_tj_bytes by exact Hin. rewrite Hd.
  now rewrite accumulate_run, for_each_right_to_left.
Qed.

(** A decoded character that the substitution table replaces by a string
    that is not one character (several, or none), wherever it stands in the
    operand: the string is placed by the direction reached before it, at the
    front of the pending text when right-to-left and at its end otherwise,
    whatever its characters and whatever the configuration; it flushes
    nothing, calls no visitor and leaves the text state alone. So an operand
    that ends with such a character gives what the operand without it gives,
    with the string placed. *)
Theorem handle_tj_multi_character_unit text tt1 rest1 tt rest t1 c y st
    orientations output fr1 text1 :
  orient (composed st) ∈ orientations ->
  decode_operand bytes_decode (encoding (cmap st)) tt1 = Return t1 ->
  decode_operand bytes_decode (encoding (cmap st)) tt = Return (t1 ++ [c]) ->
  map_dict (cmap st) !! [c] = Some y ->
  length y <> 1%nat ->
  handle_tj' text (OpBytes tt1 :: rest1) st orientations output
  = (fr1, Return text1) ->
  handle_tj' text (OpBytes tt :: rest) st orientations output
  = (with_text (if rtl_dir (f_st fr1) then y ++ text1 else text1 ++ y) fr1,
     Return (if rtl_dir (f_st fr1) then y ++ text1 else text1 ++ y)).
Proof.
  intros Hin Hd1 Hd Hy Hlen Hcall.
  rewrite handle_tj_bytes in Hcall by exact Hin. rewrite Hd1 in Hcall.
  rewrite accumulate_run in Hcall.
  destruct (for_each _ _ _) as [fr [[] | e]] eqn:Hrun; [ | discriminate ].
  injection Hcall as <- <-.
  rewrite handle_tj_bytes by exact Hin. rewrite Hd.
  unfold substitute. rewrite map_app. cbn [map]. rewrite Hy.
  fold (substitute (map_dict (cmap st)) t1).
  rewrite accumulate_run, for_each_app, Hrun, for_each_cons, tj_unit_run.
  unfold turns, unit_frame.
  rewrite keeps_order_not_single by exact Hlen.
  reflexivity.
Qed.
End handle_tj_invariants.

Lemma single_units units :
  Forall (fun x : str => length x = 1%nat) units ->
  units = map (fun c => [c]) (concat units).
Proof.
  induction 1 as [ | x units Hx _ IH]; [ reflexivity | ].
  destruct x as [ | c [ | c' x]]; try discriminate Hx.
  cbn [concat app map]. now rewrite <- IH.
Qed.

(** The pending text is of one direction: when every decoded character is
    substituted by one character (or left alone), and the pending text held
    no character of the direction opposite to the flag on entry, the pending
    text a call returns holds none of the direction opposite to the flag it
    leaves; left-to-right and right-to-left characters never stand together
    in it. *)
Theorem handle_tj_one_direction bytes_decode encode_pdfdocencoding config
    processing_TJ_op visitor_text text tt rest t st orientations output fr
    text' :
  orient (composed st) ∈ orientations ->
  decode_operand bytes_decode (encoding (cmap st)) tt = Return t ->
  Forall (fun x : str => length x = 1%nat) (substitute (map_dict (cmap st)) t) ->
  one_direction config (rtl_dir st) text ->
  handle_tj bytes_decode encode_pdfdocencoding config processing_TJ_op
    visitor_text text (OpBytes tt :: rest) st orientations output
  = (fr, Return text') ->
  one_direction config (rtl_dir (f_st fr)) text'.
Proof.
  intros Hin Hd Hsingle Htext Hcall.
  rewrite handle_tj_bytes in Hcall by exact Hin. rewrite Hd in Hcall.
  apply accumulate_returns in Hcall as [-> ->].
  rewrite (single_units _ Hsingle).
  now apply units_frame_one_direction.
Qed.

(** Decoding under a table: the bytes that fail are those the table does
    not map and that are not below 128. *)
Lemma decode_table_raises table tt :
  (decode_table table tt = Raise UnicodeDecodeError
   <-> Exists (fun b => table !! byte_int b = None /\ 128 <= byte_int b) tt)
  /\ (forall e, decode_table table tt = Raise e -> e = UnicodeDecodeError).
Proof.
  unfold decode_table.
  induction tt as [ | b tt [IH1 IH2]]; cbn [map map_outcome].
  - split; [ split; [ discriminate | intros H; inversion H ] | discriminate ].
  - destruct (table !! byte_int b) as [s | ] eqn:Hb.
    + destruct (map_outcome _ (map byte_int tt)) as [pieces | e'].
      * split; [ split; [ discriminate | ] | discriminate ].
        intros H. inversion H as [? ? [Hn _] | ? ? Ht]; [ congruence | ].
        apply IH1 in Ht. discriminate.
      * split; [ split | ].
        -- intros [= ->]. right. now apply IH1.
        -- intros H. inversion H as [? ? [Hn _] | ? ? Ht]; [ congruence | ].
           apply IH1 in Ht. exact Ht.
        -- intros e [= ->]. now apply IH2.
    + unfold decode_single_byte.
      destruct (Z.ltb_spec (byte_int b) 128) as [Hlt | Hge].
      * destruct (map_outcome _ (map byte_int tt)) as [pieces | e'].
        -- split; [ split; [ discriminate | ] | discriminate ].
           intros H. inversion H as [? ? [_ Hn] | ? ? Ht]; [ lia | ].
           apply IH1 in Ht. discriminate.
        -- split; [ split | ].
           ++ intros [= ->]. right. now apply IH1.
           ++ intros H. inversion H as [? ? [_ Hn] | ? ? Ht]; [ lia | ].
              apply IH1 in Ht. exact Ht.
           ++ intros e [= ->]. now apply IH2.
      * split; [ split; [ intros _; now left | reflexivity ] | ].
        now intros e [= <-].
Qed.

(** Under an accepted orientation and a character map with a table,
    [handle_tj] raises a Unicode decoding error with nothing changed exactly
    when some byte of the operand is neither in the table nor below 128; any
    other raise is the one of the visitor, at the last call it received. *)
Theorem handle_tj_table_decoding_error bytes_decode encode_pdfdocencoding
    config processing_TJ_op visitor_text text tt rest table st orientations
    output :
  orient (composed st) ∈ orientations ->
  encoding (cmap st) = EncTable table ->
  (handle_tj bytes_decode encode_pdfdocencoding config processing_TJ_op
     visitor_text text (OpBytes tt :: rest) st orientations output
   = (enter text output st, Raise UnicodeDecodeError)
   <-> Exists (fun b => table !! byte_int b = None /\ 128 <= byte_int b) tt)
  /\ (forall fr e,
        handle_tj bytes_decode encode_pdfdocencoding config processing_TJ_op
          visitor_text text (OpBytes tt :: rest) st orientations output
        = (fr, Raise e) ->
        (e = UnicodeDecodeError /\ fr = enter text output st
         /\ Exists (fun b => table !! byte_int b = None /\ 128 <= byte_int b)
              tt)
        \/ visitor_raised visitor_text fr e).
Proof.
  intros Hin Henc. rewrite handle_tj_bytes by exact Hin.
  rewrite Henc. cbn [decode_operand].
  destruct (decode_table_raises table tt) as [H1 H2].
  destruct (decode_table table tt) as [t | e] eqn:Hd.
  - split.
    + split.
      * intros Hacc. apply accumulate_raises in Hacc.
        destruct Hacc as (visits & t' & st' & Hvisits & _).
        cbn [enter f_visits] in Hvisits. now destruct visits.
      * intros Hex. apply H1 in Hex. discriminate.
    + intros fr e Hacc. right. now apply accumulate_raises in Hacc.
  - rewrite (H2 e eq_refl) in *. split.
    + split; [ intros _; now apply H1 | reflexivity ].
    + intros fr e' [= <- <-]. left. repeat split. now apply H1.
Qed.

(** More text states to run the examples on. *)

(** A text state whose character map replaces the character 222 by the two
    characters ["fi"]. *)
Definition ligature_state : TextState :=
  mkTextState identity_matrix identity_matrix
    (mkCharMap (EncName "charmap") {[ [222] := [102; 105] ]} "F1" None)
    12 100 100 250 0 0 true.

Lemma handle_tj_raises_witness :
  (exists tt rest,
      [OpBytes hebrew_between_latin] = OpBytes tt :: rest
      /\ decode_operand py_bytes_decode
           (encoding (cmap (named_state "utf-16-be"))) tt
         = Raise ValueError
      /\ fst (handle_tj py_bytes_decode no_encoder default_config true
                (Some raising_visitor) [97] [OpBytes hebrew_between_latin]
                (named_state "utf-16-be") [0] [98])
         = enter [97] [98] (named_state "utf-16-be"))
  \/ (exists tt rest t,
        [OpBytes hebrew_between_latin] = OpBytes tt :: rest
        /\ decode_operand py_bytes_decode
             (encoding (cmap (named_state "utf-16-be"))) tt = Return t
        /\ has_visitor (Some raising_visitor) = true
        /\ visitor_raised (Some raising_visitor)
             (fst (handle_tj py_bytes_decode no_encoder default_config true
                     (Some raising_visitor) [97]
                     [OpBytes hebrew_between_latin]
                     (named_state "utf-16-be") [0] [98])) ValueError).
Proof.
  apply (handle_tj_raises py_bytes_decode no_encoder default_config true
           (Some raising_visitor) [97] [OpBytes hebrew_between_latin]
           (named_state "utf-16-be") [0] [98] ValueError).
  by_computation.
Defined.

Lemma handle_tj_keeps_characters_witness :
  concat (map fst [([65], set_rtl_dir true (named_state "utf-16-be"));
                   ([1488], set_text_offset 1 (named_state "utf-16-be"))])
  ++ [66]
  ≡ₚ [] ++ concat (substitute (map_dict (cmap (named_state "utf-16-be")))
                     [65; 1488; 66]).
Proof.
  apply (handle_tj_keeps_characters py_bytes_decode no_encoder default_config
           true (Some quiet_visitor) [] hebrew_between_latin []
           [65; 1488; 66] (named_state "utf-16-be") [0] [120]
           (mkFrame [66] [120; 65; 1488]
              (set_text_offset 2 (named_state "utf-16-be"))
              [([65], set_rtl_dir true (named_state "utf-16-be"));
               ([1488], set_text_offset 1 (named_state "utf-16-be"))])
           [66]).
  - accepted.
  - by_computation.
  - reflexivity.
  - by_computation.
Defined.

Lemma handle_tj_left_to_right_run_witness :
  handle_tj py_bytes_decode no_encoder default_config true
    (Some raising_visitor) [97] [OpBytes [Byte.x41; Byte.x2c; Byte.x42]]
    table_state [0] [98]
  = (mkFrame ([97] ++ concat (substitute (map_dict (cmap table_state))
                                [65; 44; 66])) [98] table_state [],
     Return ([97] ++ concat (substitute (map_dict (cmap table_state))
                               [65; 44; 66]))).
Proof.
  apply (handle_tj_left_to_right_run py_bytes_decode no_encoder default_config
           true (Some raising_visitor) [97] [Byte.x41; Byte.x2c; Byte.x42] []
           [65; 44; 66] table_state [0] [98]).
  - accepted.
  - reflexivity.
  - by_computation.
  - repeat constructor; by_computation.
Defined.

Lemma handle_tj_right_to_left_run_witness :
  handle_tj py_bytes_decode no_encoder default_config true
    (Some raising_visitor) [1489]
    [OpBytes [Byte.x05; Byte.xd0; Byte.x00; Byte.x2c; Byte.x05; Byte.xd1]]
    (set_rtl_dir true (named_state "utf-16-be")) [0] [98]
  = (mkFrame
       (concat (rev (substitute
                       (map_dict (cmap (set_rtl_dir true
                                          (named_state "utf-16-be"))))
                       [1488; 44; 1489])) ++ [1489])
       [98] (set_rtl_dir true (named_state "utf-16-be")) [],
     Return
       (concat (rev (substitute
                       (map_dict (cmap (set_rtl_dir true
                                          (named_state "utf-16-be"))))
                       [1488; 44; 1489])) ++ [1489])).
Proof.
  apply (handle_tj_right_to_left_run py_bytes_decode no_encoder default_config
           true (Some raising_visitor) [1489]
           [Byte.x05; Byte.xd0; Byte.x00; Byte.x2c; Byte.x05; Byte.xd1] []
           [1488; 44; 1489] (set_rtl_dir true (named_state "utf-16-be")) [0]
           [98]).
  - accepted.
  - reflexivity.
  - by_computation.
  - repeat constructor; by_computation.
Defined.

(** The frame the operand ["A"] leaves from the right-to-left direction
    and the pending text [U+05D0]: the direction has turned. *)
Definition after_latin : Frame :=
  mkFrame [65] [1488] (set_text_offset 1 (set_rtl_dir false ligature_state))
    [([1488], set_rtl_dir false ligature_state)].

Lemma handle_tj_multi_character_unit_witness :
  handle_tj py_bytes_decode no_encoder default_config true
    (Some quiet_visitor) [1488] [OpBytes [Byte.x41; Byte.xde]] ligature_state
    [0] []
  = (with_text (if rtl_dir (f_st after_latin) then [102; 105] ++ [65]
                else [65] ++ [102; 105]) after_latin,
     Return (if rtl_dir (f_st after_latin) then [102; 105] ++ [65]
             else [65] ++ [102; 105])).
Proof.
  apply (handle_tj_multi_character_unit py_bytes_decode no_encoder
           default_config true (Some quiet_visitor) [1488] [Byte.x41] []
           [Byte.x41; Byte.xde] [] [65] 222 [102; 105] ligature_state [0] []
           after_latin [65]).
  - accepted.
  - by_computation.
  - by_computation.
  - by_computation.
  - discriminate.
  - by_computation.
Defined.

Lemma handle_tj_one_direction_witness :
  one_direction default_config
    (rtl_dir (f_st (mkFrame [66] [120; 65; 1488]
                      (set_text_offset 2 (named_state "utf-16-be"))
                      [([65], set_rtl_dir true (named_state "utf-16-be"));
                       ([1488], set_text_offset 1 (named_state "utf-16-be"))])))
    [66].
Proof.
  apply (handle_tj_one_direction py_bytes_decode no_encoder default_config true
           (Some quiet_visitor) [] hebrew_between_latin
           [] [65; 1488; 66] (named_state "utf-16-be") [0] [120]
           (mkFrame [66] [120; 65; 1488]
              (set_text_offset 2 (named_state "utf-16-be"))
              [([65], set_rtl_dir true (named_state "utf-16-be"));
               ([1488], set_text_offset 1 (named_state "utf-16-be"))])
           [66]).
  - accepted.
  - by_computation.
  - repeat constructor.
  - constructor.
  - by_computation.
Defined.

Lemma handle_tj_table_decoding_error_witness :
  handle_tj py_bytes_decode no_encoder default_config true
    (Some quiet_visitor) [97] [OpBytes [Byte.x41; Byte.xff]] table_state [0]
    [98]
  = (enter [97] [98] table_state, Raise UnicodeDecodeError).
Proof.
  apply (proj1 (handle_tj_table_decoding_error py_bytes_decode no_encoder
                  default_config true (Some quiet_visitor) [97]
                  [Byte.x41; Byte.xff] [] ∅ table_state [0] [98]
                  ltac:(accepted) eq_refl)).
  right. left. split; [ apply lookup_empty | by_computation ].
Defined.

(** ** The heuristic and the direction *)




(** ** The custom range setter: errors and repeated calls *)

Lemma set_custom_rtl_returns _min _max specials config :
  one_character _min ->
  one_character _max ->
  set_custom_rtl _min _max specials config
  = (mkRtlConfig (stored_code _min (CUSTOM_RTL_MIN config))
       (stored_code _max (CUSTOM_RTL_MAX config))
       (stored_specials specials (CUSTOM_RTL_SPECIAL_CHARS config)),
     Return (stored_code _min (CUSTOM_RTL_MIN config),
             stored_code _max (CUSTOM_RTL_MAX config),
             stored_specials specials (CUSTOM_RTL_SPECIAL_CHARS config))).
Proof.
  intros Hmin Hmax. destruct config as [cmin cmax cspecials].
  destruct _min as [[nmin | [ | c1 [ | ? ?]]] | ]; try discriminate Hmin;
    destruct _max as [[nmax | [ | c2 [ | ? ?]]] | ]; try discriminate Hmax;
    destruct specials as [[s | l] | ];
    unfold set_custom_rtl, bind, lift, modify, gets, ret; cbn;
    rewrite ?map_outcome_ord; reflexivity.
Qed.

(** A string that is not one character, given for the minimum or the
    maximum, makes [set_custom_rtl] raise a type error. The special
    characters and the maximum are then as they were; the minimum is as it
    was when it is the one refused, but a valid minimum has already been
    stored when the maximum is refused. *)
Theorem set_custom_rtl_type_error _min _max specials config :
  (~ one_character _min ->
   set_custom_rtl _min _max specials config = (config, Raise TypeError))
  /\ (one_character _min -> ~ one_character _max ->
      set_custom_rtl _min _max specials config
      = (set_min (stored_code _min (CUSTOM_RTL_MIN config)) config,
         Raise TypeError)).
Proof.
  destruct config as [cmin cmax cspecials]. split.
  - intros Hmin.
    destruct _min as [[nmin | [ | c1 [ | ? ?]]] | ];
      try (elim Hmin; exact I); try (elim Hmin; reflexivity); reflexivity.
  - intros Hmin Hmax.
    destruct _min as [[nmin | [ | c1 [ | ? ?]]] | ]; try discriminate Hmin;
      destruct _max as [[nmax | [ | c2 [ | ? ?]]] | ];
      try (elim Hmax; exact I); try (elim Hmax; reflexivity); reflexivity.
Qed.

Lemma set_custom_rtl_type_error_witness :
  set_custom_rtl (Some (ArgStr [97])) (Some (ArgStr [122; 122]))
    (Some (SpecList [88])) default_config
  = (mkRtlConfig 97 (-1) [], Raise TypeError).
Proof.
  apply (proj2 (set_custom_rtl_type_error (Some (ArgStr [97]))
                  (Some (ArgStr [122; 122])) (Some (SpecList [88]))
                  default_config) eq_refl).
  discriminate.
Defined.

(** A call that returns has settled the configuration: the same call again
    stores and returns the same, and a call with every argument omitted
    changes nothing and returns the stored values. *)
Theorem set_custom_rtl_settles _min _max specials config :
  one_character _min ->
  one_character _max ->
  set_custom_rtl _min _max specials
    (fst (set_custom_rtl _min _max specials config))
  = set_custom_rtl _min _max specials config
  /\ set_custom_rtl None None None
       (fst (set_custom_rtl _min _max specials config))
     = set_custom_rtl _min _max specials config.
Proof.
  intros Hmin Hmax.
  rewrite (set_custom_rtl_returns _min _max specials config) by assumption.
  cbn [fst]. split.
  - rewrite set_custom_rtl_returns by assumption.
    cbn [CUSTOM_RTL_MIN CUSTOM_RTL_MAX CUSTOM_RTL_SPECIAL_CHARS].
    destruct _min as [[nmin | [ | c1 [ | ? ?]]] | ]; try discriminate Hmin;
      destruct _max as [[nmax | [ | c2 [ | ? ?]]] | ]; try discriminate Hmax;
      destruct specials as [[s | l] | ]; reflexivity.
  - reflexivity.
Qed.

Lemma set_custom_rtl_settles_witness :
  set_custom_rtl (Some (ArgStr [97])) (Some (ArgInt 122))
    (Some (SpecStr [88; 89]))
    (fst (set_custom_rtl (Some (ArgStr [97])) (Some (ArgInt 122))
            (Some (SpecStr [88; 89])) default_config))
  = set_custom_rtl (Some (ArgStr [97])) (Some (ArgInt 122))
      (Some (SpecStr [88; 89])) default_config
  /\ set_custom_rtl None None None
       (fst (set_custom_rtl (Some (ArgStr [97])) (Some (ArgInt 122))
               (Some (SpecStr [88; 89])) default_config))
     = set_custom_rtl (Some (ArgStr [97])) (Some (ArgInt 122))
         (Some (SpecStr [88; 89])) default_config.
Proof.
  apply (set_custom_rtl_settles (Some (ArgStr [97])) (Some (ArgInt 122))
           (Some (SpecStr [88; 89])) default_config eq_refl I).
Defined.

(** ** The classes of the default configuration *)

(** With the configuration the module starts with, the custom range (from
    -1 to -1) makes no character right-to-left and there is no special
    character: a code point is right-to-left exactly in the three fixed
    ranges, and neutral exactly in the four fixed ones. *)
Theorem default_config_classes xx :
  (classify default_config xx = RightToLeft
   <-> 0x0590 <= xx <= 0x08FF \/ 0xFB1D <= xx <= 0xFDFF
       \/ 0xFE70 <= xx <= 0xFEFF)
  /\ (classify default_config xx = Neutral
      <-> xx <= 0x2F \/ 0x3A <= xx <= 0x40 \/ 0x2000 <= xx <= 0x206F
          \/ 0x20A0 <= xx <= 0x21FF).
Proof.
  unfold classify, keeps_order, is_rtl.
  cbn [CUSTOM_RTL_MIN CUSTOM_RTL_MAX CUSTOM_RTL_SPECIAL_CHARS default_config].
  rewrite (bool_decide_eq_false_2 (xx ∈ [])) by apply not_elem_of_nil.
  repeat match goal with
         | |- context [?a <=? ?b] => destruct (Z.leb_spec a b); try lia
         end;
    cbn [andb orb]; split; split; intros; try discriminate; try reflexivity;
    lia.
Qed.

(** ** The offset and the flushes *)

(** The offset after the fragments [visits] have been flushed one after
    the other. *)
Definition offset_after (visits : list (str * TextState)) (offset : float)
  : float :=
  fold_left (fun acc v => (acc + float_of_len (fst v))%float) visits offset.

Lemma unit_frame_offset config x fr offset :
  text_offset (f_st fr) = offset_after (f_visits fr) offset ->
  text_offset (f_st (unit_frame config true true x fr))
  = offset_after (f_visits (unit_frame config true true x fr)) offset.
Proof.
  intros Hfr. unfold unit_frame, flushed, with_text, with_st, after_flush.
  repeat match goal with
         | |- context [if ?b then _ else _] => destruct b
         end;
    cbn [f_st f_visits f_text]; try exact Hfr;
    unfold offset_after; rewrite fold_left_app; cbn [fold_left fst];
    fold (offset_after (f_visits fr) offset); now rewrite <- Hfr.
Qed.

Lemma units_frame_offset config units fr offset :
  text_offset (f_st fr) = offset_after (f_visits fr) offset ->
  text_offset (f_st (units_frame config true true units fr))
  = offset_after (f_visits (units_frame config true true units fr)) offset.
Proof.
  revert fr. induction units as [ | x units IH]; intros fr Hfr; [ exact Hfr | ].
  rewrite units_frame_cons. apply IH. now apply unit_frame_offset.
Qed.

(** Under the array form of the operator, the offset of the text state
    moves by the length of each flushed fragment, in the order of the
    flushes: with a visitor, when the call returns, the final offset is the
    initial one to which the lengths of the texts the visitor received have
    been added one by one. *)
Theorem handle_tj_offset_counts_flushes bytes_decode encode_pdfdocencoding
    config visitor_text text operands st orientations output fr text' :
  has_visitor visitor_text = true ->
  handle_tj bytes_decode encode_pdfdocencoding config true visitor_text
    text operands st orientations output = (fr, Return text') ->
  text_offset (f_st fr) = offset_after (f_visits fr) (text_offset st).
Proof.
  intros Hv.
  destruct (handle_tj_cases bytes_decode encode_pdfdocencoding config true
              visitor_text text operands st orientations output)
    as [-> | [(s & rest & _ & ->) | [(tt & rest & e' & _ & _ & ->)
                                    | (tt & rest & t & _ & _ & _ & ->)]]];
    try (intros [= <- <-]; reflexivity); try discriminate.
  intros Hacc. apply accumulate_returns in Hacc as [-> _].
  rewrite Hv. now apply units_frame_offset.
Qed.

Lemma handle_tj_offset_counts_flushes_witness :
  text_offset (f_st (mkFrame [66] [120; 65; 1488]
                       (set_text_offset 2 (named_state "utf-16-be"))
                       [([65], set_rtl_dir true (named_state "utf-16-be"));
                        ([1488], set_text_offset 1 (named_state "utf-16-be"))]))
  = offset_after
      (f_visits (mkFrame [66] [120; 65; 1488]
                   (set_text_offset 2 (named_state "utf-16-be"))
                   [([65], set_rtl_dir true (named_state "utf-16-be"));
                    ([1488], set_text_offset 1 (named_state "utf-16-be"))]))
      (text_offset (named_state "utf-16-be")).
Proof.
  apply (handle_tj_offset_counts_flushes py_bytes_decode no_encoder
           default_config (Some quiet_visitor) [] [OpBytes hebrew_between_latin]
           (named_state "utf-16-be") [0] [120]
           (mkFrame [66] [120; 65; 1488]
              (set_text_offset 2 (named_state "utf-16-be"))
              [([65], set_rtl_dir true (named_state "utf-16-be"));
               ([1488], set_text_offset 1 (named_state "utf-16-be"))])
           [66]).
  - reflexivity.
  - by_computation.
Defined.
